(** * Aquanex-Server: the streaming orchestrator, the fallback source and
    the bearer-token check, embedded from [app/llm_service.py],
    [app/utils.py] and [app/auth.py]. *)

From Stdlib Require Import String Ascii.
From Stdlib Require Import ZArith NArith Lia Bool List.
Import ListNotations.

Local Open Scope Z_scope.

(** ** Python strings

    A Python [str] is a sequence of Unicode code points, and [len] counts
    code points.  A code point is an [N]; ASCII literals of the source are
    written with [py]. *)

Definition char := N.
Definition str := list char.

Definition py (s : string) : str := map N_of_ascii (list_ascii_of_string s).

Definition len (s : str) : Z := Z.of_nat (length s).

(** [str.join] with the empty string as separator *)
Definition join (parts : list str) : str := concat parts.

(** truthiness of a [str] and of a [list] *)
Definition truthy {A} (l : list A) : bool :=
  match l with [] => false | _ :: _ => true end.

Fixpoint str_eqb (a b : str) : bool :=
  match a, b with
  | [], [] => true
  | x :: a', y :: b' => N.eqb x y && str_eqb a' b'
  | _, _ => false
  end.

(** [s.startswith(prefix)] *)
Fixpoint startswith (s prefix : str) : bool :=
  match prefix, s with
  | [], _ => true
  | p :: prefix', c :: s' => N.eqb p c && startswith s' prefix'
  | _ :: _, [] => false
  end.

(** [c.isspace()] for one code point: the characters Python's [str.split]
    treats as separators. *)
Definition isspace (c : char) : bool :=
  ((9 <=? c) && (c <=? 13) || (28 <=? c) && (c <=? 32)
   || (c =? 0x85) || (c =? 0xA0) || (c =? 0x1680)
   || (0x2000 <=? c) && (c <=? 0x200A)
   || (c =? 0x2028) || (c =? 0x2029) || (c =? 0x202F)
   || (c =? 0x205F) || (c =? 0x3000))%N.

(** [s.split()] without arguments: runs of whitespace separate the words,
    and no empty word is produced.  [cur] is the word being read, reversed. *)
Fixpoint split_from (cur : str) (s : str) : list str :=
  match s with
  | [] => if truthy cur then [rev cur] else []
  | c :: s' =>
      if isspace c
      then (if truthy cur then rev cur :: split_from [] s' else split_from [] s')
      else split_from (c :: cur) s'
  end.

Definition split (s : str) : list str := split_from [] s.

(** [s.split(" ", 1)]: at most one cut, at the first space. *)
Fixpoint split_space_1 (s : str) : list str :=
  match s with
  | [] => [[]]
  | c :: s' =>
      if (c =? 32)%N then [[]; s']
      else match split_space_1 s' with
           | w :: rest => (c :: w) :: rest
           | [] => [[c]]
           end
  end.

(** [c.lower()] on the code points that matter for the three role names:
    the ASCII capitals.  No other code point lower-cases to one of the
    letters of "system", "user" or "assistant", so the comparisons of
    [_lc_messages] are decided as Python decides them. *)
Definition lower_char (c : char) : char :=
  if ((65 <=? c) && (c <=? 90))%N then (c + 32)%N else c.

Definition lower (s : str) : str := map lower_char s.

(** ** Exceptions and results *)

Inductive exc : Type :=
| AuthenticationError              (* openai.AuthenticationError *)
| RateLimitError                   (* openai.RateLimitError *)
| TimeoutError (msg : str)         (* asyncio.TimeoutError *)
| CancelledError                   (* asyncio.CancelledError: not an Exception *)
| PermissionError (msg : str)
| ValueError (msg : str)
| IndexError
| RetryError                       (* tenacity.RetryError *)
| HTTPException (status_code : Z) (detail : str)
| OtherException (msg : str).

Inductive result (A : Type) : Type :=
| Return (a : A)
| Raise (e : exc).
Arguments Return {A} a.
Arguments Raise {A} e.

(** [isinstance(e, PermissionError)] *)
Definition is_PermissionError (e : exc) : bool :=
  match e with PermissionError _ => true | _ => false end.

(** ** [app/utils.py]: the fallback text

    The literal as the file has it: four adjacent string literals; the
    non-ASCII code points are those of the file. *)
Definition FALLBACK_TEXT : str :=
  py "<!--FALLBACK-->" ++ [0xF0; 0x178; 0x178]%N
     ++ py " Oops! Just a heads-up: **SORRY**" ++ [10%N]
  ++ py "I'm trained specifically in **aquaculture, agriculture, fish, and poultry** topics."
     ++ [10%N]
  ++ py "I was developed by **Aquanex Systems**, so that's my specialty!" ++ [10%N]
  ++ py "Please ask me something in those areas " ++ [0xE2; 0x20AC; 0x201D]%N
     ++ py " I'd love to help! " ++ [0xF0; 0x178; 0x2122]%N.

(** ** [app/llm_service.py]: [stream_fallback]

    [for word in FALLBACK_TEXT.split(): yield word + " "], then a sleep of
    15 ms; a [CancelledError] delivered to that sleep leaves the loop.
    [cancelled i] tells whether the sleep after word [i] is cancelled. *)
Fixpoint fallback_words (words : list str) (cancelled : nat -> bool) (i : nat)
  : list str :=
  match words with
  | [] => []
  | word :: rest =>
      (word ++ py " ")
        :: (if cancelled i then [] else fallback_words rest cancelled (S i))
  end.

Definition stream_fallback (cancelled : nat -> bool) : list str :=
  fallback_words (split FALLBACK_TEXT) cancelled 0%nat.

(** the replay that nobody interrupts *)
Definition uninterrupted : nat -> bool := fun _ => false.

(** ** [app/auth.py] *)

Definition HTTP_401_UNAUTHORIZED : Z := 401.

Section Auth.
(** [settings.API_AUTH_TOKEN]; [None] when it is not set. *)
Variable API_AUTH_TOKEN : option str.

Definition valid_tokens : list str :=
  match API_AUTH_TOKEN with
  | Some t => if truthy t then [t] else []
  | None => []
  end.

Definition validate_token (token : str) : result unit :=
  if negb (existsb (str_eqb token) valid_tokens)
  then Raise (HTTPException HTTP_401_UNAUTHORIZED
                (py "Unauthorized: Invalid or missing token"))
  else Return tt.

(** [auth_header] is [request.headers.get("Authorization")]. *)
Definition verify_header_auth (auth_header : option str) : result str :=
  let missing :=
    match auth_header with
    | None => true
    | Some h => negb (truthy h) || negb (startswith h (py "Bearer "))
    end in
  if missing
  then Raise (HTTPException HTTP_401_UNAUTHORIZED
                (py "Unauthorized: Missing Bearer token"))
  else
    match auth_header with
    | None => Raise IndexError
    | Some h =>
        match nth_error (split_space_1 h) 1 with
        | None => Raise IndexError
        | Some token =>
            match validate_token token with
            | Raise e => Raise e
            | Return _ => Return token
            end
        end
    end.
End Auth.

(** ** [app/llm_service.py]: [_lc_messages] *)

(** a plain dict message: [m["role"]] and [m["content"]] *)
Record message : Type := { role : str; content : str }.

Inductive lc_message : Type :=
| SystemMessage (content : str)
| HumanMessage (content : str)
| AIMessage (content : str).

Fixpoint _lc_messages (messages : list message) : result (list lc_message) :=
  match messages with
  | [] => Return []
  | m :: rest =>
      let role := lower (role m) in
      let append (x : lc_message) :=
        match _lc_messages rest with
        | Return lc_msgs => Return (x :: lc_msgs)
        | Raise e => Raise e
        end in
      if str_eqb role (py "system") then append (SystemMessage (content m))
      else if str_eqb role (py "user") then append (HumanMessage (content m))
      else if str_eqb role (py "assistant") then append (AIMessage (content m))
      else Raise (ValueError (py "Unsupported role: " ++ role))
  end.

(** ** [app/llm_service.py]: [stream_openai]

    One request is served by two cooperating tasks: the background task
    [run_call], which drives the provider and its callbacks, and the body of
    the generator, which drains the queue.  Both run on one event loop, so
    each runs without interruption between two of its own awaits.  The
    state they share is the queue, the [done] event, [error_marker] and the
    state of [call_task]. *)

Record shared : Type := {
  queue : list str;             (* asyncio.Queue, oldest token first *)
  done : bool;                  (* asyncio.Event *)
  error_marker : option exc;
  call_task_cancelled : bool    (* call_task.cancelled() *)
}.

Definition queue_put (token : str) (sh : shared) : shared :=
  {| queue := queue sh ++ [token]; done := done sh;
     error_marker := error_marker sh;
     call_task_cancelled := call_task_cancelled sh |}.

Definition queue_get (rest : list str) (sh : shared) : shared :=
  {| queue := rest; done := done sh; error_marker := error_marker sh;
     call_task_cancelled := call_task_cancelled sh |}.

Definition done_set (sh : shared) : shared :=
  {| queue := queue sh; done := true; error_marker := error_marker sh;
     call_task_cancelled := call_task_cancelled sh |}.

Definition set_error_marker (e : exc) (sh : shared) : shared :=
  {| queue := queue sh; done := done sh; error_marker := Some e;
     call_task_cancelled := call_task_cancelled sh |}.

Definition set_cancelled (sh : shared) : shared :=
  {| queue := queue sh; done := done sh; error_marker := error_marker sh;
     call_task_cancelled := true |}.

(** the three warning tokens of [run_call] *)
Definition WARNING_SIGN : str := [0x26A0; 0xFE0F]%N.

Definition RATE_LIMIT_WARNING : str :=
  WARNING_SIGN ++ py " OpenAI quota exceeded. Switching to fallback..." ++ [10%N].

Definition TIMEOUT_WARNING : str :=
  WARNING_SIGN ++ py " LLM request timed out. Using fallback..." ++ [10%N].

Definition UNEXPECTED_WARNING : str :=
  WARNING_SIGN ++ py " Unexpected error with LLM backend. Using fallback..." ++ [10%N].

(** The handlers of [run_call], for the exception [e] that leaves
    [asyncio.wait_for(llm.ainvoke(_lc_messages(messages), ...))].  A put
    on the unbounded queue does not suspend, so a handler is one step.
    [CancelledError] is not an [Exception]: no handler takes it, and the
    task ends cancelled. *)
Definition run_call_except (e : exc) (sh : shared) : shared :=
  match e with
  | AuthenticationError =>
      done_set
        (set_error_marker (PermissionError (py "Invalid or missing OpenAI API key")) sh)
  | RateLimitError =>
      done_set (queue_put RATE_LIMIT_WARNING (set_error_marker RateLimitError sh))
  | TimeoutError _ =>
      done_set
        (queue_put TIMEOUT_WARNING
           (set_error_marker (TimeoutError (py "LLM invocation timed out")) sh))
  | CancelledError => set_cancelled sh
  | _ => done_set (queue_put UNEXPECTED_WARNING (set_error_marker e sh))
  end.

(** The steps of the background task: the callbacks of [Handler] and the
    handlers of [run_call]. *)
Inductive producer_step : Type :=
| on_llm_new_token (token : str)
| on_llm_end
| on_llm_error (error : exc)
| run_call_raised (e : exc).

Definition producer (p : producer_step) (sh : shared) : shared :=
  match p with
  | on_llm_new_token token => queue_put token sh
  | on_llm_end => done_set sh
  | on_llm_error error => done_set (set_error_marker error sh)
  | run_call_raised e => run_call_except e sh
  end.

(** What the upstream provider does with one call of [llm.ainvoke]: the
    tokens it hands to [on_llm_new_token], in order, and how the call ends:
    [None] when it completes ([on_llm_end], then [ainvoke] returns), or the
    exception that leaves the [wait_for]. *)
Record provider_run : Type := {
  tokens : list str;
  raised : option exc
}.

(** Time is read from the loop's clock; a reading is a number of
    milliseconds. *)
Definition time := Z.

(** the locals of the generator body *)
Record locals : Type := {
  token_buffer : list str;
  last_flush : time
}.

(** One turn of the event loop, as the generator sees it: the background
    task runs its next step, or the generator's
    [asyncio.wait_for(queue.get(), timeout=0.2)] is over, with [now] the
    clock reading of that iteration.  The wait is over with a token when the
    queue holds one and with [TimeoutError] when it is empty. *)
Inductive tick : Type :=
| Produce
| Poll (now : time).

Inductive status : Type :=
| Running                 (* the schedule ended inside the loop *)
| Returned
| Raised (e : exc).

Definition yield (out : list str) (r : list str * status) : list str * status :=
  (out ++ fst r, snd r).

Section Orchestrator.
(** settings read from the environment *)
Variable _TOKEN_BUFFER_SIZE : Z.
Variable _TOKEN_FLUSH_INTERVAL : time.
(** [settings.OPENAI_MODEL] *)
Variable OPENAI_MODEL : str.
(** the upstream provider, for a model name and adapted messages *)
Variable llm_ainvoke : str -> list lc_message -> provider_run.
(** which sleeps of the fallback replay are cancelled *)
Variable cancelled : nat -> bool.

(** [sum(len(t) for t in token_buffer)] *)
Definition buffered (token_buffer : list str) : Z :=
  fold_right Z.add 0 (map len token_buffer).

(** the [try] branch of the loop body, after [queue.get()] gave [token] *)
Definition on_token (now : time) (token : str) (l : locals)
  : list str * locals :=
  let token_buffer := token_buffer l ++ [token] in
  if _TOKEN_BUFFER_SIZE <=? buffered token_buffer
  then ([join token_buffer], {| token_buffer := []; last_flush := now |})
  else ([], {| token_buffer := token_buffer; last_flush := last_flush l |}).

(** the [except asyncio.TimeoutError] branch, up to the completion test *)
Definition on_timeout (now : time) (l : locals) : list str * locals :=
  if truthy (token_buffer l) && (_TOKEN_FLUSH_INTERVAL <=? now - last_flush l)
  then ([join (token_buffer l)], {| token_buffer := []; last_flush := now |})
  else ([], l).

(** after the loop: the leftover flush and the error paths *)
Definition after_loop (sh : shared) (l : locals) : list str * status :=
  let leftover :=
    if truthy (token_buffer l) then [join (token_buffer l)] else [] in
  match error_marker sh with
  | Some e =>
      if is_PermissionError e then (leftover, Raised e)
      else (leftover ++ stream_fallback cancelled, Returned)
  | None => (leftover, Returned)
  end.

(** the [while True] loop, along a schedule; [script] holds the steps the
    background task has still to run *)
Fixpoint loop (sched : list tick) (script : list producer_step)
         (sh : shared) (l : locals) : list str * status :=
  match sched with
  | [] => ([], Running)
  | Produce :: sched' =>
      match script with
      | [] => loop sched' [] sh l
      | p :: script' => loop sched' script' (producer p sh) l
      end
  | Poll now :: sched' =>
      match queue sh with
      | token :: rest =>
          let sh' := queue_get rest sh in
          let '(out, l') := on_token now token l in
          if call_task_cancelled sh'
          then (out, Raised CancelledError)
          else yield out (loop sched' script sh' l')
      | [] =>
          let '(out, l') := on_timeout now l in
          (* [done.is_set() and queue.empty()]: the queue is empty here *)
          if done sh
          then yield out (after_loop sh l')
          else yield out (loop sched' script sh l')
      end
  end.

(** [model or settings.OPENAI_MODEL] *)
Definition model_or_default (model : option str) : str :=
  match model with
  | Some m => if truthy m then m else OPENAI_MODEL
  | None => OPENAI_MODEL
  end.

(** the steps of [run_call]: the messages are adapted inside the [try],
    then the provider is invoked once *)
Definition run_call (messages : list message) (model : option str)
  : list producer_step :=
  match _lc_messages messages with
  | Raise e => [run_call_raised e]
  | Return lc_msgs =>
      let run := llm_ainvoke (model_or_default model) lc_msgs in
      map on_llm_new_token (tokens run)
        ++ [match raised run with
            | None => on_llm_end
            | Some e => run_call_raised e
            end]
  end.

Definition initial : shared :=
  {| queue := []; done := false; error_marker := None;
     call_task_cancelled := false |}.

(** The body of the generator, consumed to its end: the chunks it yields
    and how it ends.  [t0] is the first clock reading.  The [finally]
    block, which waits for [call_task] and cancels it, yields nothing and
    is not part of this function. *)
Definition stream_openai (messages : list message) (model : option str)
           (t0 : time) (sched : list tick) : list str * status :=
  loop sched (run_call messages model) initial
       {| token_buffer := []; last_flush := t0 |}.
End Orchestrator.

(** ** The retry decorator

    [@retry(stop=stop_after_attempt(3),
            wait=wait_exponential(multiplier=1, min=1, max=8))]
    wraps the call of [stream_openai].  The wrapper calls the function; when
    the call raises it asks the stop rule, sleeps for the wait rule's time
    and calls again; when the call returns, it returns the result. *)

Definition stop_after_attempt (max_attempt_number attempt_number : nat) : bool :=
  (max_attempt_number <=? attempt_number)%nat.

Definition wait_exponential (multiplier min max : Z) (attempt_number : nat) : Z :=
  Z.max (Z.max 0 min)
        (Z.min (multiplier * 2 ^ (Z.of_nat attempt_number - 1)) max).

Section Retry.
Context {A : Type}.
(** [fn n] is what the [n]-th call of the wrapped function does *)
Variable fn : nat -> result A.

(** the pauses, in seconds, and the result; [fuel] bounds the attempts *)
Fixpoint retrying (fuel attempt_number : nat) : list Z * result A :=
  match fuel with
  | O => ([], Raise RetryError)
  | S fuel' =>
      match fn attempt_number with
      | Return a => ([], Return a)
      | Raise _ =>
          if stop_after_attempt 3 attempt_number
          then ([], Raise RetryError)
          else
            let '(sleeps, r) := retrying fuel' (S attempt_number) in
            (wait_exponential 1 1 8 attempt_number :: sleeps, r)
      end
  end.

Definition retry : list Z * result A := retrying 3 1.
End Retry.

(** Calling an [async def] function that contains [yield] runs none of its
    body: the call returns the generator object, which holds the arguments,
    and the body runs when the object is iterated. *)
Record async_generator : Type := {
  gen_messages : list message;
  gen_model : option str
}.

Definition stream_openai_call (messages : list message) (model : option str)
  : result async_generator :=
  Return {| gen_messages := messages; gen_model := model |}.

Section Begin.
Variable _TOKEN_BUFFER_SIZE : Z.
Variable _TOKEN_FLUSH_INTERVAL : time.
Variable OPENAI_MODEL : str.
(** [llm k] is the provider at its [k]-th invocation within the request,
    counted from 0 *)
Variable llm : nat -> str -> list lc_message -> provider_run.
Variable cancelled : nat -> bool.

(** the decorated [stream_openai], called and then iterated to its end:
    the pauses of the retry wrapper, and the stream *)
Definition begin (messages : list message) (model : option str)
           (t0 : time) (sched : list tick) : list Z * (list str * status) :=
  let '(sleeps, r) := retry (fun _ => stream_openai_call messages model) in
  match r with
  | Return g =>
      (sleeps,
       stream_openai _TOKEN_BUFFER_SIZE _TOKEN_FLUSH_INTERVAL OPENAI_MODEL
                     (llm 0%nat) cancelled (gen_messages g) (gen_model g)
                     t0 sched)
  | Raise e => (sleeps, ([], Raised e))
  end.
End Begin.

(** ** Auxiliary notions for the proofs *)

(** a word of [str.split()]: not empty, no whitespace inside *)
Definition is_word (w : str) : Prop :=
  w <> [] /\ forallb (fun c => negb (isspace c)) w = true.

(** the tokens a step of the background task puts on the queue *)
Definition step_puts (p : producer_step) : list str :=
  match p with
  | on_llm_new_token token => [token]
  | run_call_raised e => queue (run_call_except e
                                  {| queue := []; done := false;
                                     error_marker := None;
                                     call_task_cancelled := false |})
  | _ => []
  end.

Definition puts (script : list producer_step) : list str :=
  flat_map step_puts script.

(** the shared state once the whole script has run *)
Definition run_all (script : list producer_step) (sh : shared) : shared :=
  fold_left (fun s p => producer p s) script sh.

(** [done] is set by the last step of the script and by no earlier one,
    and the task is never cancelled *)
Fixpoint ends_once (script : list producer_step) (sh : shared) : Prop :=
  call_task_cancelled sh = false /\
  match script with
  | [] => done sh = true
  | p :: script' => done sh = false /\ ends_once script' (producer p sh)
  end.

(** the flush of a buffer that holds at least one token *)
Definition flush (token_buffer : list str) : list str :=
  if truthy token_buffer then [join token_buffer] else [].

(** what follows the leftover flush *)
Definition epilogue (cancelled : nat -> bool) (sh : shared) : list str * status :=
  match error_marker sh with
  | Some e =>
      if is_PermissionError e then ([], Raised e)
      else (stream_fallback cancelled, Returned)
  | None => ([], Returned)
  end.

(** the end of a schedule that lets both tasks run: the background task
    takes [n] steps, then the generator polls [k] times *)
Definition fair_end (n k : nat) (now : time) : list tick :=
  repeat Produce n ++ repeat (Poll now) k.



(** a step that ends the background task with [done] set *)
Definition is_terminal (p : producer_step) : bool :=
  match p with
  | on_llm_new_token _ => false
  | run_call_raised CancelledError => false
  | _ => true
  end.

(** the last step of [run_call] for a provider run *)
Definition last_step (run : provider_run) : producer_step :=
  match raised run with
  | None => on_llm_end
  | Some e => run_call_raised e
  end.

(** a role that is none of the three, compared in lower case *)
Definition unsupported (m : message) : Prop :=
  lower (role m) <> py "system" /\ lower (role m) <> py "user"
  /\ lower (role m) <> py "assistant".

(** *** Sample inputs *)

Definition a_question : list message :=
  [ {| role := py "system"; content := py "You answer about aquaculture." |};
    {| role := py "User"; content := py "How do I treat tilapia fin rot?" |} ].

Definition a_moderator_message : list message :=
  [ {| role := py "moderator"; content := py "hi" |} ].

(** a provider that hands over [toks] and ends as [r] says *)
Definition answering (toks : list str) (r : option exc)
  : str -> list lc_message -> provider_run :=
  fun _ _ => {| tokens := toks; raised := r |}.

(** a provider whose call fails to be established twice and then answers *)
Definition failing_twice (k : nat) : str -> list lc_message -> provider_run :=
  match k with
  | 0%nat | 1%nat => answering [] (Some (OtherException (py "Connection error.")))
  | _ => answering [py "Use "; py "salt "; py "baths."] None
  end.

(** the task runs to its end, then the generator polls at 10 ms intervals
    until a poll times out *)
Definition task_first (steps polls : nat) : list tick :=
  repeat Produce steps ++ map (fun i => Poll (10 * Z.of_nat i)) (seq 1 polls).

(** the provider's first token is empty, as the first delta of a chat
    completion stream is, and the next tokens come 200 ms later *)
Definition empty_token_first : list tick :=
  [Produce; Poll 10; Poll 210; Produce; Produce; Produce;
   Poll 220; Poll 230; Poll 430].

(** three tokens that come 100 ms apart, and then silence *)
Definition slow_tokens : list tick :=
  [Produce; Poll 100; Produce; Poll 200; Produce; Poll 300; Produce; Poll 500].

(** ** [app/utils.py]: [includes_any] and [strip_fallback_marker] *)

(** [p in s] for two strings: [p] occurs in [s] as a substring *)
Fixpoint contains (s p : str) : bool :=
  match s with
  | [] => startswith [] p
  | _ :: s' => startswith s p || contains s' p
  end.

Section Utils.
(** [text.lower()]; Python lower-cases by the Unicode tables, which are not
    part of the program *)
Variable str_lower : str -> str.

Definition includes_any (text : str) (patterns : list str) : bool :=
  let low := str_lower text in
  existsb (fun p => contains low p) patterns.
End Utils.

(** [s.replace(old, new)] for a non-empty [old]: the occurrences of [old]
    are found from left to right and do not overlap.  [skip] counts the
    characters of a found occurrence that are still to be passed. *)
Fixpoint replace_from (old new : str) (skip : nat) (s : str) : str :=
  match s with
  | [] => []
  | c :: s' =>
      match skip with
      | S k => replace_from old new k s'
      | O =>
          if startswith s old
          then new ++ replace_from old new (length old - 1) s'
          else c :: replace_from old new 0 s'
      end
  end.

Definition replace (s old new : str) : str := replace_from old new 0 s.

Definition FALLBACK_MARKER : str := py "<!--FALLBACK-->".

Definition strip_fallback_marker (text : str) : str :=
  replace text FALLBACK_MARKER [].

(** *** Further notions for the proofs *)

(** the role name and the content a LangChain message stands for *)
Definition lc_role (x : lc_message) : str :=
  match x with
  | SystemMessage _ => py "system"
  | HumanMessage _ => py "user"
  | AIMessage _ => py "assistant"
  end.

Definition lc_content (x : lc_message) : str :=
  match x with
  | SystemMessage c | HumanMessage c | AIMessage c => c
  end.


(** the tokens of a buffer as one group, when the buffer holds a token *)
Definition group_of (token_buffer : list str) : list (list str) :=
  if truthy token_buffer then [token_buffer] else [].

(** a step of a successful attempt that hands over tokens of at most [M]
    characters *)
Definition success_step (M : Z) (p : producer_step) : Prop :=
  match p with
  | on_llm_new_token token => len token <= M
  | on_llm_end => True
  | _ => False
  end.

(** an ASCII capital letter *)
Definition is_ascii_upper (c : char) : bool := ((65 <=? c) && (c <=? 90))%N.

(** ** Strings *)

Lemma str_eqb_eq (a b : str) : str_eqb a b = true <-> a = b.
Proof.
  revert b; induction a as [|x a IH]; intros [|y b]; simpl;
    try (split; [discriminate | congruence]); try tauto.
  rewrite andb_true_iff, N.eqb_eq, IH. split.
  - intros [-> ->]; reflexivity.
  - intros H; injection H; auto.
Qed.

Lemma str_eqb_refl (a : str) : str_eqb a a = true.
Proof. apply str_eqb_eq; reflexivity. Qed.


Lemma forallb_rev' {A} (f : A -> bool) (l : list A) :
  forallb f (rev l) = forallb f l.
Proof.
  induction l as [|x l IH]; simpl; [reflexivity|].
  rewrite forallb_app, IH. simpl. rewrite andb_true_r. apply andb_comm.
Qed.

Lemma rev_word (cur : str) :
  truthy cur = true ->
  forallb (fun c => negb (isspace c)) cur = true ->
  is_word (rev cur).
Proof.
  intros Hne Hcur. split.
  - intro E. apply (f_equal (@rev char)) in E. rewrite rev_involutive in E.
    subst cur. discriminate.
  - rewrite forallb_rev'. exact Hcur.
Qed.

Lemma split_from_words (s cur : str) :
  forallb (fun c => negb (isspace c)) cur = true ->
  Forall is_word (split_from cur s).
Proof.
  revert cur; induction s as [|c s IH]; intros cur Hcur; cbn [split_from].
  - destruct (truthy cur) eqn:T; constructor; [|constructor].
    apply rev_word; assumption.
  - destruct (isspace c) eqn:Hc.
    + destruct (truthy cur) eqn:T.
      * constructor; [apply rev_word; assumption | apply IH; reflexivity].
      * apply IH; reflexivity.
    + apply IH. simpl. rewrite Hc, Hcur. reflexivity.
Qed.

Lemma split_words (s : str) : Forall is_word (split s).
Proof. apply split_from_words; reflexivity. Qed.

(** reading on from a partial word [cur] through a word [w], a space and
    the rest *)
Lemma split_from_word (w cur rest : str) :
  forallb (fun c => negb (isspace c)) w = true ->
  truthy (w ++ rev cur) = true ->
  split_from cur (w ++ 32%N :: rest) = (rev cur ++ w) :: split_from [] rest.
Proof.
  revert cur; induction w as [|c w IH]; intros cur Hw Hne; simpl in *.
  - rewrite app_nil_r. destruct cur as [|x cur]; [discriminate|reflexivity].
  - apply andb_true_iff in Hw as [Hc Hw].
    apply negb_true_iff in Hc. rewrite Hc.
    rewrite IH; [|exact Hw|].
    + simpl. rewrite <- app_assoc. reflexivity.
    + simpl. destruct (w ++ rev cur ++ [c]) eqn:E; [|reflexivity].
      apply (f_equal (@length char)) in E.
      rewrite !length_app in E; simpl in E; lia.
Qed.

Lemma split_unsplit (ws : list str) :
  Forall is_word ws ->
  split (concat (map (fun w => w ++ py " ") ws)) = ws.
Proof.
  unfold split. induction 1 as [|w ws [Hne Hw] _ IH]; [reflexivity|].
  cbn [map concat]. rewrite <- app_assoc. change (py " " ++ ?r) with (32%N :: r).
  rewrite split_from_word; [|exact Hw|].
  - simpl. rewrite IH. reflexivity.
  - simpl. rewrite app_nil_r. destruct w; [contradiction|reflexivity].
Qed.

Lemma fallback_words_uninterrupted (ws : list str) (i : nat) :
  fallback_words ws uninterrupted i = map (fun w => w ++ py " ") ws.
Proof.
  revert i; induction ws as [|w ws IH]; intros i; simpl; [reflexivity|].
  rewrite IH. reflexivity.
Qed.

Lemma fallback_words_nonempty (ws : list str) (cancelled : nat -> bool) (i : nat) :
  Forall (fun chunk => chunk <> []) (fallback_words ws cancelled i).
Proof.
  revert i; induction ws as [|w ws IH]; intros i; simpl; constructor.
  - destruct w; discriminate.
  - destruct (cancelled i); [constructor | apply IH].
Qed.

(** ** The steps of the background task *)

Lemma producer_queue (p : producer_step) (sh : shared) :
  queue (producer p sh) = queue sh ++ step_puts p.
Proof.
  destruct p as [token | | error | e]; simpl; try (rewrite app_nil_r; reflexivity);
    try reflexivity.
  destruct e; simpl; try (rewrite app_nil_r; reflexivity); reflexivity.
Qed.

(** taking tokens from the queue commutes with a step of the task *)
Lemma producer_frame (p : producer_step) (q : list str) (sh : shared) :
  producer p (queue_get q sh) = queue_get (q ++ step_puts p) (producer p sh).
Proof.
  destruct p as [token | | error | e]; simpl; unfold queue_get, done_set,
    set_error_marker, queue_put; simpl; try rewrite app_nil_r; try reflexivity.
  destruct e; simpl; try rewrite app_nil_r; reflexivity.
Qed.

Lemma run_all_frame (script : list producer_step) (q : list str) (sh : shared) :
  run_all script (queue_get q sh) = queue_get (q ++ puts script) (run_all script sh).
Proof.
  revert q sh; induction script as [|p script IH]; intros q sh; simpl.
  - rewrite app_nil_r. reflexivity.
  - rewrite producer_frame. unfold run_all in IH. rewrite IH.
    rewrite <- app_assoc. reflexivity.
Qed.

Lemma run_all_queue (script : list producer_step) (sh : shared) :
  queue (run_all script sh) = queue sh ++ puts script.
Proof.
  revert sh; induction script as [|p script IH]; intros sh; simpl.
  - rewrite app_nil_r. reflexivity.
  - unfold run_all in IH. rewrite IH, producer_queue, <- app_assoc. reflexivity.
Qed.

Lemma ends_once_frame (script : list producer_step) (q : list str) (sh : shared) :
  ends_once script sh -> ends_once script (queue_get q sh).
Proof.
  revert q sh; induction script as [|p script IH]; intros q sh; simpl.
  - tauto.
  - intros (Hc & Hd & H). repeat split; try assumption.
    rewrite producer_frame. apply IH. exact H.
Qed.

Lemma epilogue_frame (cancelled : nat -> bool) (q : list str) (sh : shared) :
  epilogue cancelled (queue_get q sh) = epilogue cancelled sh.
Proof. reflexivity. Qed.

Lemma fst_pair {A B : Type} (a : A) (b : B) : fst (a, b) = a.
Proof. reflexivity. Qed.

Lemma snd_pair {A B : Type} (a : A) (b : B) : snd (a, b) = b.
Proof. reflexivity. Qed.

Lemma epilogue_fallback (cancelled : nat -> bool) (sh : shared) (e : exc) :
  error_marker sh = Some e -> is_PermissionError e = false ->
  epilogue cancelled sh = (stream_fallback cancelled, Returned).
Proof. unfold epilogue. intros -> ->. reflexivity. Qed.

(** when the handler of [run_call] follows [on_llm_error] at once, the
    callback leaves no trace: the handler sets [error_marker] and [done]
    anew *)
Lemma on_llm_error_absorbed (error e : exc) (sh : shared) :
  e <> CancelledError ->
  producer (run_call_raised e) (producer (on_llm_error error) sh)
  = producer (run_call_raised e) sh.
Proof. intros He. destruct e; try reflexivity. contradiction. Qed.

(** ** One iteration of the loop *)

Lemma concat_flush (token_buffer : list str) :
  concat (flush token_buffer) = concat token_buffer.
Proof.
  unfold flush, join. destruct token_buffer; simpl; [reflexivity|].
  rewrite app_nil_r. reflexivity.
Qed.

Section Loop.
Variable _TOKEN_BUFFER_SIZE : Z.
Variable _TOKEN_FLUSH_INTERVAL : time.
Variable cancelled : nat -> bool.

Lemma on_token_content (now : time) (token : str) (l : locals) :
  let r := on_token _TOKEN_BUFFER_SIZE now token l in
  concat (fst r) ++ concat (token_buffer (snd r))
  = concat (token_buffer l) ++ token.
Proof.
  unfold on_token, join.
  destruct (_TOKEN_BUFFER_SIZE <=? _); simpl;
    rewrite concat_app; simpl; rewrite !app_nil_r; reflexivity.
Qed.

Lemma on_timeout_content (now : time) (l : locals) :
  let r := on_timeout _TOKEN_FLUSH_INTERVAL now l in
  concat (fst r) ++ concat (token_buffer (snd r)) = concat (token_buffer l).
Proof.
  unfold on_timeout, join.
  destruct (truthy (token_buffer l) && _); simpl;
    rewrite ?app_nil_r; reflexivity.
Qed.

(** a timeout flushes the whole buffer or nothing *)
Lemma on_timeout_flush (now : time) (l : locals) :
  let r := on_timeout _TOKEN_FLUSH_INTERVAL now l in
  fst r ++ flush (token_buffer (snd r)) = flush (token_buffer l).
Proof.
  unfold on_timeout, flush.
  destruct (truthy (token_buffer l)) eqn:T; simpl.
  - destruct (_TOKEN_FLUSH_INTERVAL <=? _); simpl; [|rewrite T]; reflexivity.
  - rewrite T. reflexivity.
Qed.

Lemma after_loop_epilogue (sh : shared) (l : locals) :
  after_loop cancelled sh l
  = yield (flush (token_buffer l)) (epilogue cancelled sh).
Proof.
  unfold after_loop, epilogue, yield, flush.
  destruct (error_marker sh) as [e|]; [destruct (is_PermissionError e)|];
    simpl; rewrite ?app_nil_r; reflexivity.
Qed.

(** ** The loop along a schedule *)

(** What a finished run has yielded: the buffered and queued text and
    everything the task still puts, in that order, and then the
    epilogue. *)
Lemma loop_content (sched : list tick) :
  forall (script : list producer_step) (sh : shared) (l : locals)
         (chunks : list str) (st : status),
    ends_once script sh ->
    loop _TOKEN_BUFFER_SIZE _TOKEN_FLUSH_INTERVAL cancelled sched script sh l
    = (chunks, st) ->
    st <> Running ->
    exists pre,
      chunks = pre ++ fst (epilogue cancelled (run_all script sh))
      /\ concat pre
         = concat (token_buffer l) ++ concat (queue sh) ++ concat (puts script)
      /\ st = snd (epilogue cancelled (run_all script sh)).
Proof.
  induction sched as [|t sched IH]; intros script sh l chunks st Hends Hrun Hst.
  - simpl in Hrun. injection Hrun as _ <-. contradiction.
  - destruct t as [|now].
    + destruct script as [|p script]; simpl in Hrun.
      * eapply IH; eassumption.
      * destruct Hends as (_ & _ & Hends).
        destruct (IH _ _ _ _ _ Hends Hrun Hst) as (pre & -> & Hpre & ->).
        exists pre. repeat split; try reflexivity.
        rewrite Hpre, producer_queue. unfold puts; simpl.
        rewrite !concat_app, <- !app_assoc. reflexivity.
    + simpl in Hrun. destruct (queue sh) as [|token rest] eqn:Q.
      * pose proof (on_timeout_content now l) as Hc.
        pose proof (on_timeout_flush now l) as Hf.
        destruct (on_timeout _TOKEN_FLUSH_INTERVAL now l) as [out l'].
        simpl in Hc, Hf.
        destruct (done sh) eqn:D.
        -- destruct script as [|p script];
             [|destruct Hends as (_ & Hd & _); congruence].
           rewrite after_loop_epilogue in Hrun. unfold yield in Hrun.
           simpl in Hrun. injection Hrun as <- <-.
           exists (out ++ flush (token_buffer l')).
           simpl. rewrite app_assoc. repeat split; try reflexivity.
           rewrite Hf, concat_flush, app_nil_r. reflexivity.
        -- unfold yield in Hrun.
           destruct (loop _ _ _ sched script sh l') as [c' s'] eqn:E.
           simpl in Hrun. injection Hrun as <- <-.
           destruct (IH _ _ _ _ _ Hends E Hst) as (pre & -> & Hpre & ->).
           exists (out ++ pre). rewrite app_assoc.
           repeat split; try reflexivity.
           rewrite concat_app, Hpre, <- Hc, ?Q, <- !app_assoc. reflexivity.
      * pose proof (on_token_content now token l) as Hc.
        destruct (on_token _TOKEN_BUFFER_SIZE now token l) as [out l'].
        simpl in Hc.
        assert (Hcanc : call_task_cancelled sh = false)
          by (destruct script; simpl in Hends; tauto).
        simpl in Hrun. rewrite Hcanc in Hrun. unfold yield in Hrun.
        destruct (loop _ _ _ sched script (queue_get rest sh) l')
          as [c' s'] eqn:E.
        simpl in Hrun. injection Hrun as <- <-.
        destruct (IH _ _ _ _ _ (ends_once_frame _ rest _ Hends) E Hst)
          as (pre & -> & Hpre & ->).
        rewrite run_all_frame, epilogue_frame.
        exists (out ++ pre). rewrite app_assoc.
        repeat split; try reflexivity.
        rewrite concat_app, Hpre, ?Q. simpl.
        rewrite !app_assoc, Hc, <- !app_assoc. reflexivity.
Qed.
End Loop.

Section LoopFacts.
Variable _TOKEN_BUFFER_SIZE : Z.
Variable _TOKEN_FLUSH_INTERVAL : time.
Variable cancelled : nat -> bool.

Local Abbreviation loop' :=
  (loop _TOKEN_BUFFER_SIZE _TOKEN_FLUSH_INTERVAL cancelled).

(** with nothing buffered before, a token is flushed at once or is the
    whole buffer *)
Lemma on_token_flush (now : time) (token : str) (l : locals) :
  token_buffer l = [] ->
  let r := on_token _TOKEN_BUFFER_SIZE now token l in
  fst r ++ flush (token_buffer (snd r)) = [token].
Proof.
  intros Hb. unfold on_token, flush, join. rewrite Hb. simpl.
  destruct (_TOKEN_BUFFER_SIZE <=? _); simpl; rewrite app_nil_r; reflexivity.
Qed.

(** the task has finished and the queue is empty: the next poll ends the
    loop *)
Lemma loop_drained (sched : list tick) :
  forall (sh : shared) (l : locals) (chunks : list str) (st : status),
    done sh = true -> queue sh = [] ->
    loop' sched [] sh l = (chunks, st) ->
    st <> Running ->
    chunks = flush (token_buffer l) ++ fst (epilogue cancelled sh)
    /\ st = snd (epilogue cancelled sh).
Proof.
  induction sched as [|t sched IH]; intros sh l chunks st D Q Hrun Hst.
  - simpl in Hrun. injection Hrun as _ <-. contradiction.
  - destruct t as [|now]; simpl in Hrun.
    + eapply IH; eassumption.
    + rewrite Q, D in Hrun.
      pose proof (on_timeout_flush _TOKEN_FLUSH_INTERVAL now l) as Hf.
      destruct (on_timeout _TOKEN_FLUSH_INTERVAL now l) as [out l'].
      simpl in Hf. rewrite after_loop_epilogue in Hrun.
      unfold yield in Hrun. simpl in Hrun. injection Hrun as <- <-.
      rewrite app_assoc, Hf. split; reflexivity.
Qed.

(** one token is queued, nothing is buffered, the task has finished *)
Lemma loop_one_token (sched : list tick) :
  forall (sh : shared) (l : locals) (w : str) (chunks : list str) (st : status),
    done sh = true -> call_task_cancelled sh = false ->
    queue sh = [w] -> token_buffer l = [] ->
    loop' sched [] sh l = (chunks, st) ->
    st <> Running ->
    chunks = [w] ++ fst (epilogue cancelled sh)
    /\ st = snd (epilogue cancelled sh).
Proof.
  induction sched as [|t sched IH]; intros sh l w chunks st D C Q B Hrun Hst.
  - simpl in Hrun. injection Hrun as _ <-. contradiction.
  - destruct t as [|now]; simpl in Hrun.
    + eapply IH; eassumption.
    + rewrite Q in Hrun.
      pose proof (on_token_flush now w l B) as Hf.
      destruct (on_token _TOKEN_BUFFER_SIZE now w l) as [out l'].
      simpl in Hf, Hrun. rewrite C in Hrun. unfold yield in Hrun.
      destruct (loop' sched [] (queue_get [] sh) l') as [c' s'] eqn:E.
      simpl in Hrun. injection Hrun as <- <-.
      destruct (loop_drained sched (queue_get [] sh) l' c' s' D eq_refl E Hst)
        as [-> ->].
      rewrite epilogue_frame, app_assoc, Hf. split; reflexivity.
Qed.

(** the task's only step puts one token and sets [done] *)
Lemma loop_single_put (sched : list tick) :
  forall (p : producer_step) (sh : shared) (l : locals) (w : str)
         (chunks : list str) (st : status),
    done sh = false -> queue sh = [] -> token_buffer l = [] ->
    step_puts p = [w] ->
    done (producer p sh) = true ->
    call_task_cancelled (producer p sh) = false ->
    loop' sched [p] sh l = (chunks, st) ->
    st <> Running ->
    chunks = [w] ++ fst (epilogue cancelled (producer p sh))
    /\ st = snd (epilogue cancelled (producer p sh)).
Proof.
  induction sched as [|t sched IH];
    intros p sh l w chunks st D Q B Hp D' C' Hrun Hst.
  - simpl in Hrun. injection Hrun as _ <-. contradiction.
  - destruct t as [|now]; simpl in Hrun.
    + eapply loop_one_token; try eassumption.
      rewrite producer_queue, Q, Hp. reflexivity.
    + rewrite Q, D in Hrun. unfold on_timeout in Hrun.
      rewrite B in Hrun. simpl in Hrun. unfold yield in Hrun.
      destruct (loop' sched [p] sh l) as [c' s'] eqn:E.
      simpl in Hrun. injection Hrun as <- <-.
      eapply IH; eassumption.
Qed.

(** *** Every run comes to its end *)

Lemma done_monotone (script : list producer_step) (sh : shared) :
  done sh = true -> done (run_all script sh) = true.
Proof.
  revert sh; induction script as [|p script IH]; intros sh D; simpl; [exact D|].
  apply IH. destruct p as [token | | error | e]; simpl; try assumption;
    try reflexivity.
  destruct e; simpl; try assumption; reflexivity.
Qed.

Lemma after_loop_finished (sh : shared) (l : locals) :
  snd (after_loop cancelled sh l) <> Running.
Proof.
  unfold after_loop.
  destruct (error_marker sh) as [e|]; [destruct (is_PermissionError e)|];
    simpl; discriminate.
Qed.

Lemma polls_finish (k : nat) (now : time) :
  forall (sh : shared) (l : locals),
    done sh = true -> (length (queue sh) < k)%nat ->
    snd (loop' (repeat (Poll now) k) [] sh l) <> Running.
Proof.
  induction k as [|k IH]; intros sh l D Hk; [lia|].
  simpl. destruct (queue sh) as [|token rest] eqn:Q.
  - rewrite D. destruct (on_timeout _ now l) as [out l'].
    unfold yield; simpl. apply after_loop_finished.
  - destruct (on_token _ now token l) as [out l']. simpl.
    destruct (call_task_cancelled sh); simpl; [discriminate|].
    apply IH; simpl in *; [exact D | lia].
Qed.

Lemma fair_end_finishes (n k : nat) (now : time) :
  forall (script : list producer_step) (sh : shared) (l : locals),
    (length script <= n)%nat ->
    (length (queue sh) + length (puts script) < k)%nat ->
    done (run_all script sh) = true ->
    snd (loop' (fair_end n k now) script sh l) <> Running.
Proof.
  unfold fair_end.
  induction n as [|n IH]; intros script sh l Hn Hk D.
  - destruct script; [|simpl in Hn; lia].
    simpl in *. apply polls_finish; [exact D | lia].
  - simpl. destruct script as [|p script].
    + apply (IH [] sh l); simpl in *; [lia | lia | exact D].
    + change (puts (p :: script)) with (step_puts p ++ puts script) in Hk.
      rewrite length_app in Hk.
      apply IH; [simpl in Hn; lia | | exact D].
      rewrite producer_queue, length_app. lia.
Qed.

Lemma loop_finishes (sched : list tick) (n k : nat) (now : time) :
  forall (script : list producer_step) (sh : shared) (l : locals),
    (length script <= n)%nat ->
    (length (queue sh) + length (puts script) < k)%nat ->
    done (run_all script sh) = true ->
    snd (loop' (sched ++ fair_end n k now) script sh l) <> Running.
Proof.
  induction sched as [|t sched IH]; intros script sh l Hn Hk D.
  - apply fair_end_finishes; assumption.
  - destruct t as [|now']; simpl.
    + destruct script as [|p script].
      * apply IH; assumption.
      * change (puts (p :: script)) with (step_puts p ++ puts script) in Hk.
        rewrite length_app in Hk.
        apply IH; [simpl in Hn; lia | | exact D].
        rewrite producer_queue, length_app. lia.
    + destruct (queue sh) as [|token rest] eqn:Q.
      * destruct (on_timeout _ now' l) as [out l'].
        destruct (done sh); unfold yield; simpl.
        -- apply after_loop_finished.
        -- apply IH; [exact Hn | rewrite Q; exact Hk | exact D].
      * destruct (on_token _ now' token l) as [out l']. simpl.
        destruct (call_task_cancelled sh); simpl; [discriminate|].
        apply IH; [exact Hn | simpl in *; lia |].
        rewrite run_all_frame. exact D.
Qed.

(** *** Chunks made of non-empty tokens are not empty *)

Lemma join_nonempty (token_buffer : list str) :
  truthy token_buffer = true ->
  Forall (fun t => t <> []) token_buffer ->
  join token_buffer <> [].
Proof.
  intros T H. destruct H as [|t ts Ht _]; [discriminate|].
  unfold join; simpl. destruct t; [contradiction | discriminate].
Qed.

Lemma loop_chunks_nonempty (sched : list tick) :
  forall (script : list producer_step) (sh : shared) (l : locals),
    Forall (fun t => t <> []) (token_buffer l) ->
    Forall (fun t => t <> []) (queue sh) ->
    Forall (fun t => t <> []) (puts script) ->
    Forall (fun chunk => chunk <> []) (fst (loop' sched script sh l)).
Proof.
  induction sched as [|t sched IH]; intros script sh l B Q P; simpl.
  - constructor.
  - destruct t as [|now].
    + destruct script as [|p script]; [apply IH; assumption|].
      unfold puts in P; simpl in P. apply Forall_app in P as [P1 P2].
      apply IH; try assumption.
      rewrite producer_queue. apply Forall_app; split; assumption.
    + destruct (queue sh) as [|token rest] eqn:E.
      * assert (H : Forall (fun chunk => chunk <> [])
                      (fst (on_timeout _TOKEN_FLUSH_INTERVAL now l))
                    /\ Forall (fun t => t <> [])
                         (token_buffer (snd (on_timeout _TOKEN_FLUSH_INTERVAL now l)))).
        { unfold on_timeout. destruct (truthy (token_buffer l)) eqn:T; simpl.
          - destruct (_TOKEN_FLUSH_INTERVAL <=? _); simpl; split;
              try assumption; constructor; auto using join_nonempty.
          - split; [constructor | assumption]. }
        destruct (on_timeout _ now l) as [out l']. simpl in H.
        destruct H as [Hout Hl'].
        destruct (done sh); unfold yield; simpl; apply Forall_app; split;
          try assumption.
        -- unfold after_loop.
           assert (L : Forall (fun chunk => chunk <> [])
                         (if truthy (token_buffer l')
                          then [join (token_buffer l')] else [])).
           { destruct (truthy (token_buffer l')) eqn:T; constructor;
               auto using join_nonempty. }
           destruct (error_marker sh) as [e|];
             [destruct (is_PermissionError e)|]; simpl; try assumption.
           apply Forall_app; split; [assumption|].
           apply fallback_words_nonempty.
        -- apply IH; try assumption. rewrite E. constructor.
      * inversion Q as [|? ? Ht Hrest]; subst.
        assert (H : Forall (fun chunk => chunk <> [])
                      (fst (on_token _TOKEN_BUFFER_SIZE now token l))
                    /\ Forall (fun t => t <> [])
                         (token_buffer (snd (on_token _TOKEN_BUFFER_SIZE now token l)))).
        { assert (B' : Forall (fun t => t <> []) (token_buffer l ++ [token]))
            by (apply Forall_app; split; [assumption | constructor; auto]).
          unfold on_token. destruct (_TOKEN_BUFFER_SIZE <=? _); simpl; split;
            try assumption; constructor; auto.
          apply join_nonempty; [|assumption].
          destruct (token_buffer l); reflexivity. }
        destruct (on_token _ now token l) as [out l']. simpl in H.
        destruct H as [Hout Hl'].
        simpl. destruct (call_task_cancelled sh); simpl; [assumption|].
        apply Forall_app; split; [assumption|].
        apply IH; assumption.
Qed.
End LoopFacts.

(** ** The script of [run_call] *)

Lemma puts_app (s1 s2 : list producer_step) : puts (s1 ++ s2) = puts s1 ++ puts s2.
Proof. unfold puts. apply flat_map_app. Qed.

Lemma puts_tokens (toks : list str) : puts (map on_llm_new_token toks) = toks.
Proof. induction toks as [|t toks IH]; simpl; [|rewrite IH]; reflexivity. Qed.

Lemma terminal_done (p : producer_step) (sh : shared) :
  is_terminal p = true ->
  done (producer p sh) = true
  /\ call_task_cancelled (producer p sh) = call_task_cancelled sh.
Proof.
  destruct p as [token | | error | e]; simpl; try discriminate; auto.
  destruct e; simpl; try discriminate; auto.
Qed.

Lemma run_all_tokens (toks : list str) (sh : shared) :
  run_all (map on_llm_new_token toks) sh = queue_get (queue sh ++ toks) sh.
Proof.
  revert sh; induction toks as [|t toks IH]; intros sh; simpl.
  - rewrite app_nil_r. destruct sh; reflexivity.
  - unfold run_all in IH. rewrite IH. simpl. rewrite <- app_assoc. reflexivity.
Qed.

Lemma run_all_script (toks : list str) (p : producer_step) (sh : shared) :
  run_all (map on_llm_new_token toks ++ [p]) sh
  = queue_get (queue sh ++ toks ++ step_puts p) (producer p sh).
Proof.
  unfold run_all. rewrite fold_left_app. fold (run_all (map on_llm_new_token toks) sh).
  rewrite run_all_tokens. simpl. rewrite producer_frame, <- app_assoc. reflexivity.
Qed.

Lemma ends_once_script (toks : list str) (p : producer_step) (sh : shared) :
  is_terminal p = true ->
  done sh = false -> call_task_cancelled sh = false ->
  ends_once (map on_llm_new_token toks ++ [p]) sh.
Proof.
  intros Hp. revert sh; induction toks as [|t toks IH]; intros sh D C; simpl.
  - destruct (terminal_done p sh Hp) as [D' C']. rewrite C' . auto.
  - repeat split; try assumption. apply IH; assumption.
Qed.

Lemma run_call_adapted (OPENAI_MODEL : str)
      (llm_ainvoke : str -> list lc_message -> provider_run)
      (messages : list message) (model : option str) (lc_msgs : list lc_message) :
  _lc_messages messages = Return lc_msgs ->
  let run := llm_ainvoke (model_or_default OPENAI_MODEL model) lc_msgs in
  run_call OPENAI_MODEL llm_ainvoke messages model
  = map on_llm_new_token (tokens run) ++ [last_step run].
Proof. intros H. unfold run_call, last_step. rewrite H. reflexivity. Qed.

(** the first unsupported role makes [_lc_messages] raise [ValueError] *)
Lemma lc_messages_unsupported (messages : list message) (m : message) :
  In m messages -> unsupported m ->
  exists r, _lc_messages messages = Raise (ValueError (py "Unsupported role: " ++ r)).
Proof.
  induction messages as [|m' messages IH]; intros Hin Hm; [contradiction|].
  cbn [_lc_messages].
  assert (Hrest : m' = m \/ exists r,
             _lc_messages messages = Raise (ValueError (py "Unsupported role: " ++ r))).
  { destruct Hin as [->|Hin]; [left; reflexivity | right; apply IH; assumption]. }
  destruct (str_eqb (lower (role m')) (py "system")) eqn:E1;
    [|destruct (str_eqb (lower (role m')) (py "user")) eqn:E2;
      [|destruct (str_eqb (lower (role m')) (py "assistant")) eqn:E3]].
  4: { eexists; reflexivity. }
  all: destruct Hrest as [->|[r ->]]; [|eexists; reflexivity].
  all: destruct Hm as (H1 & H2 & H3).
  - apply str_eqb_eq in E1. contradiction.
  - apply str_eqb_eq in E2. contradiction.
  - apply str_eqb_eq in E3. contradiction.
Qed.

(** ** Runs of [stream_openai] *)

Section Runs.
Variable _TOKEN_BUFFER_SIZE : Z.
Variable _TOKEN_FLUSH_INTERVAL : time.
Variable OPENAI_MODEL : str.
Variable llm_ainvoke : str -> list lc_message -> provider_run.
Variable cancelled : nat -> bool.

Local Abbreviation stream :=
  (stream_openai _TOKEN_BUFFER_SIZE _TOKEN_FLUSH_INTERVAL OPENAI_MODEL
                 llm_ainvoke cancelled).

(** A finished run has yielded the provider's tokens and what the last
    step put, in that order, and then the epilogue. *)
Lemma stream_openai_content (messages : list message) (model : option str)
      (t0 : time) (lc_msgs : list lc_message) :
  _lc_messages messages = Return lc_msgs ->
  let run := llm_ainvoke (model_or_default OPENAI_MODEL model) lc_msgs in
  is_terminal (last_step run) = true ->
  forall sched chunks st,
    stream messages model t0 sched = (chunks, st) ->
    st <> Running ->
    exists pre,
      chunks = pre ++ fst (epilogue cancelled (producer (last_step run) initial))
      /\ concat pre = concat (tokens run) ++ concat (step_puts (last_step run))
      /\ st = snd (epilogue cancelled (producer (last_step run) initial)).
Proof.
  intros Hlc run Hterm sched chunks st Hrun Hst.
  unfold stream_openai in Hrun.
  rewrite (run_call_adapted _ _ _ _ _ Hlc) in Hrun. fold run in Hrun.
  destruct (loop_content _ _ _ sched _ _ _ _ _
              (ends_once_script (tokens run) _ initial Hterm eq_refl eq_refl)
              Hrun Hst) as (pre & Hchunks & Hpre & Hstat).
  rewrite run_all_script, epilogue_frame in Hchunks, Hstat.
  exists pre. repeat split; try assumption.
  rewrite Hpre, puts_app, puts_tokens, concat_app. simpl.
  rewrite app_nil_r. reflexivity.
Qed.

(** Every schedule that goes on to let the task finish and the generator
    poll often enough brings the run to its end. *)
Lemma stream_openai_finishes (messages : list message) (model : option str)
      (t0 : time) (lc_msgs : list lc_message) :
  _lc_messages messages = Return lc_msgs ->
  let run := llm_ainvoke (model_or_default OPENAI_MODEL model) lc_msgs in
  is_terminal (last_step run) = true ->
  forall sched now,
    snd (stream messages model t0
           (sched ++ fair_end (S (length (tokens run)))
                              (S (S (length (tokens run)))) now))
    <> Running.
Proof.
  intros Hlc run Hterm sched now. unfold stream_openai.
  rewrite (run_call_adapted _ _ _ _ _ Hlc). fold run. clearbody run.
  apply loop_finishes.
  - rewrite length_app, length_map. cbn [length]. unfold str, char. lia.
  - rewrite puts_app, puts_tokens, length_app. simpl. rewrite app_nil_r.
    assert (length (step_puts (last_step run)) <= 1)%nat;
      [|unfold str, char in *; lia].
    destruct (last_step run) as [token | | error | e]; simpl; try lia.
    destruct e; simpl; lia.
  - rewrite run_all_script. simpl. apply terminal_done. exact Hterm.
Qed.
End Runs.

(** ** The stream of a successful attempt *)

(** C1. When the messages are valid and the provider attempt ends in
    success, every finished run of [stream_openai] has returned normally and
    the concatenation of its chunks is the concatenation of the provider's
    tokens in arrival order: nothing is lost, doubled or moved, whatever the
    chunk boundaries are.  And every schedule that lets the task finish and
    the generator go on polling finishes that way. *)
Theorem success_stream_is_token_stream :
  forall (_TOKEN_BUFFER_SIZE : Z) (_TOKEN_FLUSH_INTERVAL : time)
         (OPENAI_MODEL : str)
         (llm_ainvoke : str -> list lc_message -> provider_run)
         (cancelled : nat -> bool)
         (messages : list message) (model : option str) (t0 : time)
         (lc_msgs : list lc_message),
    _lc_messages messages = Return lc_msgs ->
    let run := llm_ainvoke (model_or_default OPENAI_MODEL model) lc_msgs in
    let stream :=
      stream_openai _TOKEN_BUFFER_SIZE _TOKEN_FLUSH_INTERVAL OPENAI_MODEL
                    llm_ainvoke cancelled messages model t0 in
    raised run = None ->
    (forall sched chunks st,
        stream sched = (chunks, st) -> st <> Running ->
        st = Returned /\ concat chunks = concat (tokens run))
    /\ (forall sched now,
           let r := stream (sched ++ fair_end (S (length (tokens run)))
                                              (S (S (length (tokens run)))) now) in
           snd r = Returned /\ concat (fst r) = concat (tokens run)).
Proof.
  intros SIZE INTERVAL OM llm cancelled messages model t0 lc_msgs Hlc run stream Hok.
  assert (Hterm : is_terminal (last_step run) = true)
    by (unfold last_step; rewrite Hok; reflexivity).
  assert (Hfin : forall sched chunks st,
             stream sched = (chunks, st) -> st <> Running ->
             st = Returned /\ concat chunks = concat (tokens run)).
  { intros sched chunks st Hrun Hst.
    destruct (stream_openai_content SIZE INTERVAL OM llm cancelled messages model
                t0 lc_msgs Hlc Hterm sched chunks st Hrun Hst)
      as (pre & -> & Hpre & ->).
    fold run in Hpre |- *. unfold last_step in Hpre |- *.
    rewrite Hok in Hpre |- *. simpl in Hpre |- *.
    rewrite app_nil_r in Hpre |- *. auto. }
  split; [exact Hfin|].
  intros sched now r.
  eapply Hfin; [apply surjective_pairing|].
  apply (stream_openai_finishes SIZE INTERVAL OM llm cancelled messages model
           t0 lc_msgs Hlc Hterm).
Qed.

Lemma success_stream_witness :
  concat (fst (stream_openai 48 50 (py "gpt-4o-mini")
                 (answering [py "Salt "; py "baths "; py "help."] None)
                 uninterrupted a_question None 0 (task_first 4 4)))
  = py "Salt baths help.".
Proof.
  destruct (success_stream_is_token_stream 48 50 (py "gpt-4o-mini")
              (answering [py "Salt "; py "baths "; py "help."] None)
              uninterrupted a_question None 0 _ eq_refl eq_refl) as [H _].
  destruct (H (task_first 4 4) _ _ (surjective_pairing _)) as [_ Hc].
  - vm_compute. discriminate.
  - exact Hc.
Defined.

(** ** Authentication failure *)



(** ** Rate limit and timeout *)




(** ** An unsupported role *)

(** C4, what the code does.  When some message has a role that is none of
    system, user and assistant, [_lc_messages] raises [ValueError] inside
    the [try] of [run_call], which takes it for an unexpected error of the
    backend: every finished run has returned normally after yielding the
    "unexpected error" warning and the whole fallback replay, and every
    schedule that lets the task run and the generator poll twice returns
    normally.  No error reaches the caller. *)
Theorem unsupported_role_falls_back :
  forall (_TOKEN_BUFFER_SIZE : Z) (_TOKEN_FLUSH_INTERVAL : time)
         (OPENAI_MODEL : str)
         (llm_ainvoke : str -> list lc_message -> provider_run)
         (cancelled : nat -> bool)
         (messages : list message) (model : option str) (t0 : time)
         (m : message),
    In m messages -> unsupported m ->
    let stream :=
      stream_openai _TOKEN_BUFFER_SIZE _TOKEN_FLUSH_INTERVAL OPENAI_MODEL
                    llm_ainvoke cancelled messages model t0 in
    (exists r,
        _lc_messages messages = Raise (ValueError (py "Unsupported role: " ++ r)))
    /\ (forall sched chunks st,
           stream sched = (chunks, st) -> st <> Running ->
           st = Returned
           /\ chunks = UNEXPECTED_WARNING :: stream_fallback cancelled)
    /\ (forall sched now, snd (stream (sched ++ fair_end 1 2 now)) = Returned).
Proof.
  intros SIZE INTERVAL OM llm cancelled messages model t0 m Hin Hm stream.
  destruct (lc_messages_unsupported messages m Hin Hm) as [r Hr].
  split; [exists r; exact Hr|].
  assert (Hscript : run_call OM llm messages model
                    = [run_call_raised (ValueError (py "Unsupported role: " ++ r))])
    by (unfold run_call; rewrite Hr; reflexivity).
  assert (Hfin : forall sched chunks st,
             stream sched = (chunks, st) -> st <> Running ->
             st = Returned
             /\ chunks = UNEXPECTED_WARNING :: stream_fallback cancelled).
  { intros sched chunks st Hrun Hst.
    unfold stream, stream_openai in Hrun. rewrite Hscript in Hrun.
    destruct (loop_single_put SIZE INTERVAL cancelled sched
                (run_call_raised (ValueError (py "Unsupported role: " ++ r)))
                initial {| token_buffer := []; last_flush := t0 |}
                UNEXPECTED_WARNING chunks st eq_refl eq_refl eq_refl eq_refl
                eq_refl eq_refl Hrun Hst) as [-> ->].
    rewrite (epilogue_fallback cancelled _ (ValueError (py "Unsupported role: " ++ r)))
      by reflexivity.
    rewrite fst_pair, snd_pair. split; reflexivity. }
  split; [exact Hfin|].
  intros sched now.
  eapply Hfin; [apply surjective_pairing|].
  unfold stream, stream_openai. rewrite Hscript.
  apply loop_finishes; [simpl; lia | simpl; lia | reflexivity].
Qed.

Lemma unsupported_role_witness :
  stream_openai 48 50 (py "gpt-4o-mini")
                (answering [py "Salt "; py "baths "; py "help."] None)
                uninterrupted a_moderator_message None 0 (task_first 1 2)
  = (UNEXPECTED_WARNING :: stream_fallback uninterrupted, Returned).
Proof.
  assert (Hm : unsupported {| role := py "moderator"; content := py "hi" |})
    by (repeat split; discriminate).
  destruct (unsupported_role_falls_back 48 50 (py "gpt-4o-mini")
              (answering [py "Salt "; py "baths "; py "help."] None)
              uninterrupted a_moderator_message None 0 _
              (or_introl eq_refl) Hm) as (_ & H & _).
  destruct (H (task_first 1 2) _ _ (surjective_pairing _)) as [Hst Hchunks].
  - vm_compute. discriminate.
  - rewrite (surjective_pairing (stream_openai _ _ _ _ _ _ _ _ _)).
    rewrite Hst, Hchunks. reflexivity.
Defined.

(** ** The retry decorator *)

Lemma wait_exponential_values :
  wait_exponential 1 1 8 1 = 1 /\ wait_exponential 1 1 8 2 = 2
  /\ wait_exponential 1 1 8 3 = 4
  /\ forall attempt_number, 1 <= wait_exponential 1 1 8 attempt_number <= 8.
Proof.
  repeat split; try reflexivity; unfold wait_exponential; lia.
Qed.

(** around a call that raises twice and returns at its third attempt, the
    wrapper pauses 1 s and 2 s and returns the result *)
Lemma retry_after_two_failures {A : Type} (fn : nat -> result A) (a : A) (e1 e2 : exc) :
  fn 1%nat = Raise e1 -> fn 2%nat = Raise e2 -> fn 3%nat = Return a ->
  retry fn = ([1; 2], Return a).
Proof.
  intros H1 H2 H3. unfold retry. cbn [retrying]. rewrite H1. cbn [stop_after_attempt Nat.leb].
  rewrite H2. cbn [stop_after_attempt Nat.leb]. rewrite H3. reflexivity.
Qed.

(** around a call that raises every time, it gives up after the third
    attempt *)
Lemma retry_gives_up {A : Type} (fn : nat -> result A) :
  (forall n, exists e, fn n = Raise e) ->
  retry fn = ([1; 2], Raise RetryError).
Proof.
  intros H. unfold retry. cbn [retrying].
  destruct (H 1%nat) as [e1 ->]. cbn [stop_after_attempt Nat.leb].
  destruct (H 2%nat) as [e2 ->]. cbn [stop_after_attempt Nat.leb].
  destruct (H 3%nat) as [e3 ->]. reflexivity.
Qed.

(** the call of [stream_openai] never raises, so the wrapper makes one
    attempt, pauses never, and hands out the generator *)
Lemma begin_one_attempt (_TOKEN_BUFFER_SIZE : Z) (_TOKEN_FLUSH_INTERVAL : time)
      (OPENAI_MODEL : str) (llm : nat -> str -> list lc_message -> provider_run)
      (cancelled : nat -> bool) (messages : list message) (model : option str)
      (t0 : time) (sched : list tick) :
  begin _TOKEN_BUFFER_SIZE _TOKEN_FLUSH_INTERVAL OPENAI_MODEL llm cancelled
        messages model t0 sched
  = ([], stream_openai _TOKEN_BUFFER_SIZE _TOKEN_FLUSH_INTERVAL OPENAI_MODEL
                       (llm 0%nat) cancelled messages model t0 sched).
Proof. reflexivity. Qed.

(** C5, what the code does.  When the provider call cannot be established
    (the first invocation raises before any token), nothing is retried: the
    retry wrapper has made its one attempt when it got the generator, there
    is no pause, and the failure is taken for an unexpected error at once:
    a finished run has yielded the warning and the fallback replay.  What
    the provider would do at a second or third invocation plays no part. *)
Theorem establishment_failure_is_not_retried :
  forall (_TOKEN_BUFFER_SIZE : Z) (_TOKEN_FLUSH_INTERVAL : time)
         (OPENAI_MODEL : str)
         (llm : nat -> str -> list lc_message -> provider_run)
         (cancelled : nat -> bool)
         (messages : list message) (model : option str) (t0 : time)
         (lc_msgs : list lc_message) (msg : str),
    _lc_messages messages = Return lc_msgs ->
    llm 0%nat (model_or_default OPENAI_MODEL model) lc_msgs
    = {| tokens := []; raised := Some (OtherException msg) |} ->
    forall sched,
      let r := begin _TOKEN_BUFFER_SIZE _TOKEN_FLUSH_INTERVAL OPENAI_MODEL llm
                     cancelled messages model t0 sched in
      fst r = []
      /\ (snd (snd r) <> Running ->
          snd r = (UNEXPECTED_WARNING :: stream_fallback cancelled, Returned)).
Proof.
  intros SIZE INTERVAL OM llm cancelled messages model t0 lc_msgs msg Hlc Hrun sched r.
  subst r. rewrite begin_one_attempt, fst_pair, snd_pair.
  split; [reflexivity|]. intros Hst.
  rewrite (surjective_pairing (stream_openai _ _ _ _ _ _ _ _ _)) at 1.
  remember (stream_openai SIZE INTERVAL OM (llm 0%nat) cancelled messages model
                          t0 sched) as out eqn:Hout.
  symmetry in Hout. rewrite (surjective_pairing out) in Hout.
  unfold stream_openai, run_call in Hout. rewrite Hlc, Hrun in Hout.
  cbn [tokens raised map app] in Hout.
  destruct (loop_single_put SIZE INTERVAL cancelled sched
              (run_call_raised (OtherException msg)) initial
              {| token_buffer := []; last_flush := t0 |} UNEXPECTED_WARNING
              (fst out) (snd out) eq_refl eq_refl eq_refl eq_refl eq_refl eq_refl
              Hout Hst) as [Hc Hs].
  rewrite (epilogue_fallback cancelled _ (OtherException msg)) in Hc, Hs
    by reflexivity.
  rewrite fst_pair in Hc. rewrite snd_pair in Hs. rewrite Hc, Hs. reflexivity.
Qed.

Lemma establishment_failure_witness :
  begin 48 50 (py "gpt-4o-mini") failing_twice uninterrupted a_question None 0
        (task_first 1 2)
  = ([], (UNEXPECTED_WARNING :: stream_fallback uninterrupted, Returned)).
Proof.
  destruct (establishment_failure_is_not_retried 48 50 (py "gpt-4o-mini")
              failing_twice uninterrupted a_question None 0 _
              (py "Connection error.") eq_refl eq_refl (task_first 1 2))
    as [Hsleeps Hstream].
  rewrite (surjective_pairing (begin _ _ _ _ _ _ _ _ _)).
  rewrite Hsleeps, Hstream; [reflexivity|].
  vm_compute. discriminate.
Defined.

(** ** The flush rule *)




(** the same along a run: three tokens 100 ms apart are yielded as one
    chunk, and only once a wait has timed out *)
Example slow_tokens_wait_for_silence :
  stream_openai 48 50 (py "gpt-4o-mini") (answering [py "a"; py "b"; py "c"] None)
                uninterrupted a_question None 0 slow_tokens
  = ([py "abc"], Returned).
Proof. reflexivity. Qed.

(** ** The fallback replay *)

(** C7, as the code has it.  The uninterrupted replay is one fixed list of
    39 tokens: the words of [FALLBACK_TEXT], in order, each followed by one
    space.  Their concatenation is the fallback text with each line break
    replaced by a space and with one more space at its end; cutting it
    into words again gives the words of the fallback text. *)
Theorem fallback_replay_words :
  stream_fallback uninterrupted = map (fun w => w ++ py " ") (split FALLBACK_TEXT)
  /\ length (stream_fallback uninterrupted) = 39%nat
  /\ Forall is_word (split FALLBACK_TEXT)
  /\ concat (stream_fallback uninterrupted)
     = map (fun c => if isspace c then 32%N else c) FALLBACK_TEXT ++ py " "
  /\ split (concat (stream_fallback uninterrupted)) = split FALLBACK_TEXT.
Proof.
  assert (H : stream_fallback uninterrupted
              = map (fun w => w ++ py " ") (split FALLBACK_TEXT))
    by apply fallback_words_uninterrupted.
  split; [exact H|]. split; [vm_compute; reflexivity|].
  split; [apply split_words|]. split; [vm_compute; reflexivity|].
  rewrite H. apply split_unsplit, split_words.
Qed.

(** C7 as stated fails: the tokens do not concatenate to the fallback text
    itself. *)
Lemma fallback_replay_is_not_the_text :
  concat (stream_fallback uninterrupted) <> FALLBACK_TEXT.
Proof.
  intros H. apply (f_equal (@length char)) in H. vm_compute in H. discriminate.
Qed.

(** ** Chunks are not empty when tokens are not *)

Lemma raised_puts_nonempty (e : exc) :
  Forall (fun t => t <> []) (step_puts (run_call_raised e)).
Proof. destruct e; simpl; repeat constructor; discriminate. Qed.

(** C9, as the code has it.  When no token of the provider is empty, no
    chunk that [stream_openai] yields is empty, whatever the threshold, the
    interval and the schedule are, and whether the chunk comes from a flush
    on size, a flush on time, the leftover flush or the fallback replay. *)
Theorem chunks_of_nonempty_tokens_are_nonempty :
  forall (_TOKEN_BUFFER_SIZE : Z) (_TOKEN_FLUSH_INTERVAL : time)
         (OPENAI_MODEL : str)
         (llm_ainvoke : str -> list lc_message -> provider_run)
         (cancelled : nat -> bool)
         (messages : list message) (model : option str) (t0 : time)
         (sched : list tick),
    (forall name lc_msgs,
        Forall (fun token => token <> []) (tokens (llm_ainvoke name lc_msgs))) ->
    Forall (fun chunk => chunk <> [])
           (fst (stream_openai _TOKEN_BUFFER_SIZE _TOKEN_FLUSH_INTERVAL
                               OPENAI_MODEL llm_ainvoke cancelled messages
                               model t0 sched)).
Proof.
  intros SIZE INTERVAL OM llm cancelled messages model t0 sched Htok.
  unfold stream_openai. apply loop_chunks_nonempty; try constructor.
  unfold run_call. destruct (_lc_messages messages) as [lc_msgs|e].
  - rewrite puts_app, puts_tokens. apply Forall_app. split; [apply Htok|].
    unfold puts. cbn [flat_map]. rewrite app_nil_r.
    destruct (raised _) as [e|]; [apply raised_puts_nonempty | constructor].
  - unfold puts. cbn [flat_map]. rewrite app_nil_r. apply raised_puts_nonempty.
Qed.

Lemma nonempty_chunks_witness :
  Forall (fun chunk => chunk <> [])
         (fst (stream_openai 48 50 (py "gpt-4o-mini")
                 (answering [py "Salt "; py "baths "; py "help."] None)
                 uninterrupted a_question None 0 (task_first 4 4))).
Proof.
  apply chunks_of_nonempty_tokens_are_nonempty.
  intros name lc_msgs. vm_compute. repeat constructor; discriminate.
Defined.

(** C9 as stated fails: an empty token that is alone in the buffer when a
    wait times out is yielded as an empty chunk. *)
Lemma empty_token_gives_empty_chunk :
  ~ Forall (fun chunk => chunk <> [])
      (fst (stream_openai 48 50 (py "gpt-4o-mini")
              (answering [[]; py "Salt "; py "baths."] None)
              uninterrupted a_question None 0 empty_token_first)).
Proof.
  assert (E : fst (stream_openai 48 50 (py "gpt-4o-mini")
                     (answering [[]; py "Salt "; py "baths."] None)
                     uninterrupted a_question None 0 empty_token_first)
              = [[]; py "Salt baths."]) by reflexivity.
  rewrite E. intros H. inversion H as [|? ? Hne _]. apply Hne. reflexivity.
Qed.

(** ** The bearer token *)

Lemma existsb_one (token t : str) :
  existsb (str_eqb token) [t] = true <-> t = token.
Proof.
  simpl. rewrite orb_false_r, str_eqb_eq. split; congruence.
Qed.

(** C10. [validate_token] raises the 401 error exactly when the token is
    not the configured [API_AUTH_TOKEN], a token that is set and not empty;
    it returns exactly when it is.  When [API_AUTH_TOKEN] is unset or
    empty there is no valid token: [validate_token] raises for every
    token, and [verify_header_auth] raises for every request. *)
Theorem validate_token_accepts_only_the_configured_token :
  forall (API_AUTH_TOKEN : option str) (token : str) (auth_header : option str),
    let unauthorized :=
      HTTPException 401 (py "Unauthorized: Invalid or missing token") in
    (validate_token API_AUTH_TOKEN token = Raise unauthorized
     <-> ~ (API_AUTH_TOKEN = Some token /\ token <> []))
    /\ (validate_token API_AUTH_TOKEN token = Return tt
        <-> API_AUTH_TOKEN = Some token /\ token <> [])
    /\ valid_tokens None = [] /\ valid_tokens (Some []) = []
    /\ validate_token None token = Raise unauthorized
    /\ validate_token (Some []) token = Raise unauthorized
    /\ (exists e, verify_header_auth None auth_header = Raise e)
    /\ (exists e, verify_header_auth (Some []) auth_header = Raise e).
Proof.
  intros cfg token auth_header unauthorized.
  assert (Hvalid : existsb (str_eqb token) (valid_tokens cfg) = true
                   <-> cfg = Some token /\ token <> []).
  { unfold valid_tokens. destruct cfg as [t|].
    - destruct t as [|c t]; cbn [truthy].
      + simpl. split; [discriminate|]. intros [H Hne]. congruence.
      + rewrite existsb_one. split.
        * intros <-. split; [reflexivity | discriminate].
        * intros [H _]. congruence.
    - simpl. split; [discriminate | intros [H _]; discriminate]. }
  assert (Hno : forall c, valid_tokens c = [] ->
                  exists e, verify_header_auth c auth_header = Raise e).
  { intros c Hc. unfold verify_header_auth, validate_token. rewrite Hc.
    destruct auth_header as [h|]; [|eexists; reflexivity].
    destruct (negb (truthy h) || negb (startswith h (py "Bearer ")));
      [eexists; reflexivity|].
    destruct (nth_error (split_space_1 h) 1); eexists; reflexivity. }
  split; [|split].
  - unfold validate_token.
    destruct (existsb (str_eqb token) (valid_tokens cfg)); cbn [negb].
    + split; [discriminate|]. intros H. exfalso. apply H, Hvalid. reflexivity.
    + split; [|reflexivity]. intros _ H. apply Hvalid in H. discriminate.
  - unfold validate_token.
    destruct (existsb (str_eqb token) (valid_tokens cfg)); cbn [negb].
    + split; [|reflexivity]. intros _. apply Hvalid. reflexivity.
    + split; [discriminate|]. intros H. apply Hvalid in H. discriminate.
  - repeat split; try reflexivity; apply Hno; reflexivity.
Qed.

(** a request with the configured token passes, and the token is returned *)
Example verify_header_auth_accepts :
  verify_header_auth (Some (py "s3cret")) (Some (py "Bearer s3cret"))
  = Return (py "s3cret").
Proof. reflexivity. Qed.

(** with an empty [API_AUTH_TOKEN], the empty bearer token is refused *)
Example empty_token_is_refused :
  verify_header_auth (Some []) (Some (py "Bearer "))
  = Raise (HTTPException 401 (py "Unauthorized: Invalid or missing token")).
Proof. reflexivity. Qed.

(** * Further properties of the code *)

(** ** Prefixes and substrings *)

Lemma startswith_spec (s p : str) :
  startswith s p = true <-> exists post, s = p ++ post.
Proof.
  revert s; induction p as [|c p IH]; intros s; simpl.
  - split; [intros _; exists s; reflexivity | intros _; destruct s; reflexivity].
  - destruct s as [|d s]; simpl.
    + split; [discriminate | intros [post H]; discriminate].
    + rewrite andb_true_iff, N.eqb_eq, IH. split.
      * intros [-> [post ->]]. exists post. reflexivity.
      * intros [post H]. injection H as -> ->. split; [reflexivity|].
        exists post. reflexivity.
Qed.

Lemma contains_spec (s p : str) :
  contains s p = true <-> exists pre post, s = pre ++ p ++ post.
Proof.
  induction s as [|c s IH]; cbn [contains].
  - rewrite startswith_spec. split.
    + intros [post H]. exists [], post. exact H.
    + intros (pre & post & H). symmetry in H.
      apply app_eq_nil in H as [-> H]. exists post. symmetry. exact H.
  - rewrite orb_true_iff, startswith_spec, IH. split.
    + intros [[post H]|(pre & post & H)].
      * exists [], post. exact H.
      * exists (c :: pre), post. rewrite H. reflexivity.
    + intros (pre & post & H). destruct pre as [|d pre].
      * left. exists post. exact H.
      * right. injection H as _ H. exists pre, post. exact H.
Qed.

(** ** [includes_any] *)

(** X1. [includes_any(text, patterns)] is true exactly when some pattern
    of the list occurs as a substring in the lower-cased text.  The
    patterns themselves are compared as they are. *)
Theorem includes_any_spec :
  forall (str_lower : str -> str) (text : str) (patterns : list str),
    includes_any str_lower text patterns = true
    <-> exists p pre post,
        In p patterns /\ str_lower text = pre ++ p ++ post.
Proof.
  intros str_lower text patterns. unfold includes_any.
  rewrite existsb_exists. split.
  - intros (p & Hin & H). apply contains_spec in H as (pre & post & H).
    exists p, pre, post. auto.
  - intros (p & pre & post & Hin & H). exists p. split; [exact Hin|].
    apply contains_spec. exists pre, post. exact H.
Qed.

(** X2. Only the text is lower-cased.  A pattern that holds an ASCII
    capital letter can therefore match no text at all, lower-casing never
    yielding such a letter. *)
Theorem includes_any_capital_pattern_never_matches :
  forall (str_lower : str -> str) (text : str) (patterns : list str),
    (forall s c, In c (str_lower s) -> is_ascii_upper c = false) ->
    Forall (fun p => exists c, In c p /\ is_ascii_upper c = true) patterns ->
    includes_any str_lower text patterns = false.
Proof.
  intros str_lower text patterns Hlow Hcap.
  destruct (includes_any str_lower text patterns) eqn:E; [|reflexivity].
  apply includes_any_spec in E as (p & pre & post & Hin & H).
  rewrite Forall_forall in Hcap. destruct (Hcap p Hin) as (c & Hc & Hup).
  assert (Hc' : In c (str_lower text)).
  { rewrite H. apply in_or_app. right. apply in_or_app. left. exact Hc. }
  rewrite (Hlow text c Hc') in Hup. discriminate.
Qed.

Lemma lower_no_capital (s : str) (c : char) :
  In c (lower s) -> is_ascii_upper c = false.
Proof.
  unfold lower. rewrite in_map_iff. intros (d & <- & _).
  unfold lower_char, is_ascii_upper.
  destruct ((65 <=? d) && (d <=? 90))%N eqn:E.
  - apply andb_true_iff in E as [E1 E2].
    apply N.leb_le in E1, E2. apply andb_false_iff. right.
    apply N.leb_gt. lia.
  - exact E.
Qed.

Lemma includes_any_capital_witness :
  includes_any lower (py "Water pH management in ponds") [py "water pH management"]
  = false.
Proof.
  apply includes_any_capital_pattern_never_matches.
  - exact lower_no_capital.
  - repeat constructor. exists 72%N. split; [vm_compute; tauto | reflexivity].
Defined.

(** X3. The empty string occurs in every text: a pattern list that holds
    it matches everything. *)
Theorem includes_any_empty_pattern :
  forall (str_lower : str -> str) (text : str) (patterns : list str),
    In [] patterns -> includes_any str_lower text patterns = true.
Proof.
  intros str_lower text patterns Hin. apply includes_any_spec.
  exists [], [], (str_lower text). split; [exact Hin | reflexivity].
Qed.

Lemma includes_any_empty_pattern_witness :
  includes_any lower (py "anything at all") [py "fish"; []] = true.
Proof.
  apply includes_any_empty_pattern. right. left. reflexivity.
Defined.

(** ** [strip_fallback_marker] *)

Lemma replace_from_skip (old new : str) (passed s : str) :
  replace_from old new (length passed) (passed ++ s) = replace_from old new 0 s.
Proof.
  induction passed as [|c passed IH]; simpl; [reflexivity | exact IH].
Qed.

(** an occurrence at the head is replaced, and the search goes on behind
    it *)
Lemma replace_head (old new rest : str) :
  old <> [] ->
  replace (old ++ rest) old new = new ++ replace rest old new.
Proof.
  intros Hne. unfold replace. destruct old as [|c old]; [contradiction|].
  assert (H : startswith ((c :: old) ++ rest) (c :: old) = true)
    by (apply startswith_spec; exists rest; reflexivity).
  change ((c :: old) ++ rest) with (c :: (old ++ rest)) in *.
  assert (L : (length (c :: old) - 1)%nat = length old) by (simpl; lia).
  cbn [replace_from]. rewrite H, L, replace_from_skip. reflexivity.
Qed.

Lemma replace_absent (s old new : str) :
  contains s old = false -> replace s old new = s.
Proof.
  unfold replace. induction s as [|c s IH]; simpl; [reflexivity|].
  intros H. apply orb_false_iff in H as [H1 H2].
  simpl in H1. rewrite H1, (IH H2). reflexivity.
Qed.

Lemma replace_from_length (old : str) (skip : nat) (s : str) :
  (length (replace_from old [] skip s) <= length s)%nat.
Proof.
  revert skip; induction s as [|c s IH]; intros skip;
    cbn [replace_from length]; [lia|].
  destruct skip as [|k].
  - destruct (startswith (c :: s) old); cbn [app length].
    + pose proof (IH (length old - 1)%nat). unfold str, char in *. lia.
    + pose proof (IH 0%nat). unfold str, char in *. lia.
  - pose proof (IH k). unfold str, char in *. lia.
Qed.

Lemma replace_present_shorter (s old : str) :
  old <> [] ->
  contains s old = true ->
  (length (replace s old []) < length s)%nat.
Proof.
  intros Hne.
  unfold replace. induction s as [|c s IH]; cbn [contains replace_from length].
  - intros H. destruct old; [contradiction | discriminate].
  - intros H. destruct (startswith (c :: s) old) eqn:E.
    + cbn [app]. pose proof (replace_from_length old (length old - 1) s).
      unfold str, char in *. lia.
    + cbn [orb] in H. specialize (IH H). cbn [length].
      unfold str, char in *. lia.
Qed.

(** X4. [strip_fallback_marker] gives the text back unchanged exactly when
    the marker does not occur in it; when the marker occurs, the result is
    shorter. *)
Theorem strip_fallback_marker_unchanged_iff_absent :
  forall text : str,
    (strip_fallback_marker text = text <-> contains text FALLBACK_MARKER = false)
    /\ (length (strip_fallback_marker text) <= length text)%nat.
Proof.
  intros text. unfold strip_fallback_marker. split; [split|].
  - intros H. destruct (contains text FALLBACK_MARKER) eqn:E; [|reflexivity].
    apply replace_present_shorter in E; [|discriminate]. rewrite H in E. lia.
  - apply replace_absent.
  - apply replace_from_length.
Qed.

(** X5. A marker that follows a piece of text without "<" is cut out, the
    piece before it is kept, and what follows the marker is stripped in its
    turn; in particular a marker at the very start is removed. *)
Theorem strip_fallback_marker_removes_marker :
  forall before rest : str,
    ~ In 60%N before ->
    strip_fallback_marker (before ++ FALLBACK_MARKER ++ rest)
    = before ++ strip_fallback_marker rest.
Proof.
  intros before rest Hlt. unfold strip_fallback_marker.
  induction before as [|c before IH].
  - rewrite !app_nil_l, replace_head by discriminate. reflexivity.
  - assert (Hc : c <> 60%N) by (intros ->; apply Hlt; left; reflexivity).
    assert (Hrest : ~ In 60%N before) by (intros H; apply Hlt; right; exact H).
    unfold replace in *. cbn [app replace_from].
    assert (E : startswith (c :: before ++ FALLBACK_MARKER ++ rest) FALLBACK_MARKER
                = false).
    { change FALLBACK_MARKER with (60%N :: py "!--FALLBACK-->") at 2.
      cbn [startswith]. apply N.eqb_neq in Hc. rewrite N.eqb_sym, Hc. reflexivity. }
    rewrite E, (IH Hrest). reflexivity.
Qed.

Lemma strip_fallback_marker_witness :
  strip_fallback_marker (FALLBACK_MARKER ++ py "Oops! <!--FALLBACK-->Sorry")
  = py "Oops! Sorry".
Proof.
  etransitivity.
  - exact (strip_fallback_marker_removes_marker []
             (py "Oops! <!--FALLBACK-->Sorry") (fun H => H)).
  - vm_compute. reflexivity.
Defined.

(** the result of one pass can hold the marker again *)
Example strip_fallback_marker_is_one_pass :
  strip_fallback_marker (py "<!--FALL<!--FALLBACK-->BACK-->") = FALLBACK_MARKER.
Proof. reflexivity. Qed.

(** ** [_lc_messages] *)

Lemma lc_messages_step (m : message) (rest : list message) (x : lc_message) :
  lc_role x = lower (role m) -> lc_content x = content m ->
  _lc_messages (m :: rest)
  = match _lc_messages rest with
    | Return lc_msgs => Return (x :: lc_msgs)
    | Raise e => Raise e
    end.
Proof.
  intros Hr Hc. cbn [_lc_messages]. rewrite <- Hr, <- Hc.
  destruct x; reflexivity.
Qed.

Lemma lc_messages_return_inv (m : message) (rest : list message)
      (lc_msgs : list lc_message) :
  _lc_messages (m :: rest) = Return lc_msgs ->
  exists x l,
    lc_msgs = x :: l /\ lc_role x = lower (role m)
    /\ lc_content x = content m /\ _lc_messages rest = Return l.
Proof.
  cbn [_lc_messages]. intros H.
  destruct (str_eqb (lower (role m)) (py "system")) eqn:E1;
    [|destruct (str_eqb (lower (role m)) (py "user")) eqn:E2;
      [|destruct (str_eqb (lower (role m)) (py "assistant")) eqn:E3;
        [|discriminate]]].
  all: destruct (_lc_messages rest) as [l|e]; [|discriminate].
  all: injection H as <-.
  - apply str_eqb_eq in E1. exists (SystemMessage (content m)), l.
    split; [reflexivity|]. split; [symmetry; exact E1|]. split; reflexivity.
  - apply str_eqb_eq in E2. exists (HumanMessage (content m)), l.
    split; [reflexivity|]. split; [symmetry; exact E2|]. split; reflexivity.
  - apply str_eqb_eq in E3. exists (AIMessage (content m)), l.
    split; [reflexivity|]. split; [symmetry; exact E3|]. split; reflexivity.
Qed.

(** X6. [_lc_messages] returns a list exactly when that list has, message
    by message and in the same order, the content of the input message and
    the kind that its lower-cased role names: nothing is dropped, added or
    reordered, and roles are matched whatever their case. *)
Theorem lc_messages_returns_iff :
  forall (messages : list message) (lc_msgs : list lc_message),
    _lc_messages messages = Return lc_msgs
    <-> map lc_role lc_msgs = map (fun m => lower (role m)) messages
        /\ map lc_content lc_msgs = map content messages.
Proof.
  induction messages as [|m rest IH]; intros lc_msgs.
  - cbn [_lc_messages map]. split.
    + intros H. injection H as <-. split; reflexivity.
    + intros [H _]. destruct lc_msgs; [reflexivity | discriminate].
  - split.
    + intros H.
      apply lc_messages_return_inv in H as (x & l & -> & Hr & Hc & Hrest).
      apply IH in Hrest as [H1 H2]. cbn [map]. rewrite Hr, Hc, H1, H2.
      split; reflexivity.
    + intros [H1 H2]. destruct lc_msgs as [|x l]; [discriminate|].
      cbn [map] in H1, H2. injection H1 as Hr H1. injection H2 as Hc H2.
      rewrite (lc_messages_step m rest x Hr Hc).
      rewrite (proj2 (IH l) (conj H1 H2)). reflexivity.
Qed.




(** ** [verify_header_auth] *)

Lemma validate_token_returns (API_AUTH_TOKEN : option str) (token : str) :
  validate_token API_AUTH_TOKEN token = Return tt
  <-> API_AUTH_TOKEN = Some token /\ token <> [].
Proof.
  unfold validate_token, valid_tokens.
  destruct API_AUTH_TOKEN as [t|]; [destruct t as [|c t]|]; cbn [truthy existsb].
  - cbn. split; [discriminate | intros [H Hne]; congruence].
  - rewrite orb_false_r.
    destruct (str_eqb token (c :: t)) eqn:E; cbn [negb].
    + apply str_eqb_eq in E. subst token. split; [|reflexivity].
      intros _. split; [reflexivity | discriminate].
    + split; [discriminate|]. intros [H _]. injection H as H.
      rewrite H, str_eqb_refl in E. discriminate.
  - cbn. split; [discriminate | intros [H _]; discriminate].
Qed.

Lemma validate_token_raises (API_AUTH_TOKEN : option str) (token : str) (e : exc) :
  validate_token API_AUTH_TOKEN token = Raise e ->
  e = HTTPException 401 (py "Unauthorized: Invalid or missing token").
Proof.
  unfold validate_token. destruct (negb _); [|discriminate].
  intros H. injection H as <-. reflexivity.
Qed.

Lemma split_bearer (rest : str) :
  split_space_1 (py "Bearer " ++ rest) = [py "Bearer"; rest].
Proof. reflexivity. Qed.

(** X8. [verify_header_auth] returns a token exactly when the header is
    "Bearer " followed by that token and the token is the configured
    [API_AUTH_TOKEN], set and not empty.  The token is everything after the
    first space, further spaces included. *)
Theorem verify_header_auth_accepts_iff :
  forall (API_AUTH_TOKEN : option str) (auth_header : option str) (token : str),
    verify_header_auth API_AUTH_TOKEN auth_header = Return token
    <-> auth_header = Some (py "Bearer " ++ token)
        /\ API_AUTH_TOKEN = Some token /\ token <> [].
Proof.
  intros cfg hdr token. unfold verify_header_auth. split.
  - destruct hdr as [h|]; [|discriminate].
    destruct (negb (truthy h) || negb (startswith h (py "Bearer "))) eqn:E;
      [discriminate|].
    apply orb_false_iff in E as [_ E]. apply negb_false_iff in E.
    apply startswith_spec in E as [rest ->].
    rewrite split_bearer. cbn [nth_error].
    destruct (validate_token cfg rest) as [[]|e] eqn:V; [|discriminate].
    intros H. injection H as <-.
    apply validate_token_returns in V. split; [reflexivity | exact V].
  - intros (-> & Hcfg & Hne).
    assert (S : startswith (py "Bearer " ++ token) (py "Bearer ") = true)
      by (apply startswith_spec; exists token; reflexivity).
    rewrite S.
    change (negb (truthy (py "Bearer " ++ token))) with false.
    cbn [negb orb]. rewrite split_bearer. cbn [nth_error].
    rewrite (proj2 (validate_token_returns cfg token) (conj Hcfg Hne)).
    reflexivity.
Qed.

(** X9. Every failure of [verify_header_auth] is an HTTP 401 error, never
    an [IndexError]: "Missing Bearer token" exactly for a header that is
    absent or does not start with "Bearer ", and "Invalid or missing token"
    for a header that starts with "Bearer " and carries a token that
    [validate_token] refuses. *)
Theorem verify_header_auth_fails_with_401 :
  forall (API_AUTH_TOKEN : option str) (auth_header : option str) (e : exc),
    verify_header_auth API_AUTH_TOKEN auth_header = Raise e ->
    (e = HTTPException 401 (py "Unauthorized: Missing Bearer token")
     /\ (auth_header = None
         \/ exists h, auth_header = Some h
                      /\ startswith h (py "Bearer ") = false))
    \/ (e = HTTPException 401 (py "Unauthorized: Invalid or missing token")
        /\ exists token, auth_header = Some (py "Bearer " ++ token)
                         /\ ~ (API_AUTH_TOKEN = Some token /\ token <> [])).
Proof.
  intros cfg hdr e. unfold verify_header_auth.
  destruct hdr as [h|].
  - destruct (startswith h (py "Bearer ")) eqn:S.
    + apply startswith_spec in S as [rest ->].
      change (negb (truthy (py "Bearer " ++ rest))) with false.
      cbn [negb orb]. rewrite split_bearer. cbn [nth_error].
      destruct (validate_token cfg rest) as [[]|e'] eqn:V; [discriminate|].
      intros H. injection H as <-. right. split.
      * exact (validate_token_raises cfg rest e' V).
      * exists rest. split; [reflexivity|]. intros H.
        apply validate_token_returns in H. congruence.
    + rewrite orb_true_r. intros H. injection H as <-. left.
      split; [reflexivity|]. right. exists h. auto.
  - intros H. injection H as <-. left. split; [reflexivity | left; reflexivity].
Qed.

Lemma verify_header_auth_401_witness :
  verify_header_auth (Some (py "s3cret")) (Some (py "bearer s3cret"))
  = Raise (HTTPException 401 (py "Unauthorized: Missing Bearer token")).
Proof.
  destruct (verify_header_auth (Some (py "s3cret")) (Some (py "bearer s3cret")))
    as [token|e] eqn:E.
  - vm_compute in E. discriminate.
  - destruct (verify_header_auth_fails_with_401 _ _ e E) as [[-> _]|[_ (t & H & _)]].
    + reflexivity.
    + vm_compute in H. discriminate.
Defined.

(** ** [stream_fallback] under cancellation *)

Lemma fallback_words_cancelled (words : list str) (cancelled : nat -> bool) :
  forall i k : nat,
    (k < length words)%nat ->
    cancelled (i + k)%nat = true ->
    (forall j, (j < k)%nat -> cancelled (i + j)%nat = false) ->
    fallback_words words cancelled i
    = firstn (S k) (map (fun w => w ++ py " ") words).
Proof.
  induction words as [|w words IH]; intros i k Hk Hc Hbefore; [simpl in Hk; lia|].
  cbn [fallback_words map]. destruct k as [|k].
  - rewrite Nat.add_0_r in Hc. rewrite Hc. reflexivity.
  - assert (H0 : cancelled i = false)
      by (rewrite <- (Nat.add_0_r i); apply Hbefore; lia).
    rewrite H0. cbn [firstn]. f_equal.
    apply IH.
    + simpl in Hk. lia.
    + replace (S i + k)%nat with (i + S k)%nat by lia. exact Hc.
    + intros j Hj. replace (S i + j)%nat with (i + S j)%nat by lia.
      apply Hbefore. lia.
Qed.

(** X10. When the sleep after word number [k] (from 0) is the first one
    that is cancelled, the replay yields the first [k + 1] tokens of the
    uninterrupted replay and stops: the word before the cancelled sleep has
    been yielded, no later word is. *)
Theorem stream_fallback_cancelled_is_a_prefix :
  forall (cancelled : nat -> bool) (k : nat),
    (k < length (stream_fallback uninterrupted))%nat ->
    cancelled k = true ->
    (forall j, (j < k)%nat -> cancelled j = false) ->
    stream_fallback cancelled = firstn (S k) (stream_fallback uninterrupted).
Proof.
  intros cancelled k Hk Hc Hbefore.
  assert (U : stream_fallback uninterrupted
              = map (fun w => w ++ py " ") (split FALLBACK_TEXT))
    by apply fallback_words_uninterrupted.
  rewrite U in Hk |- *. rewrite length_map in Hk.
  exact (fallback_words_cancelled _ cancelled 0 k Hk Hc Hbefore).
Qed.

Lemma stream_fallback_cancelled_witness :
  stream_fallback (fun i => (i =? 2)%nat)
  = firstn 3 (stream_fallback uninterrupted).
Proof.
  apply (stream_fallback_cancelled_is_a_prefix (fun i => (i =? 2)%nat) 2).
  - vm_compute. lia.
  - reflexivity.
  - intros j Hj. destruct j as [|[|j]]; [reflexivity | reflexivity | lia].
Defined.

(** ** Other ends of the provider attempt *)





(** *** A cancelled background task *)






(** ** How tokens are grouped into chunks *)

Lemma group_of_join (token_buffer : list str) :
  map join (group_of token_buffer) = flush token_buffer.
Proof. unfold group_of, flush. destruct (truthy token_buffer); reflexivity. Qed.

Lemma group_of_concat (token_buffer : list str) :
  concat (group_of token_buffer) = token_buffer.
Proof.
  unfold group_of. destruct token_buffer; cbn [truthy concat]; [reflexivity|].
  apply app_nil_r.
Qed.

Lemma group_of_nonempty (token_buffer : list str) :
  Forall (fun g : list str => g <> []) (group_of token_buffer).
Proof.
  unfold group_of. destruct token_buffer; cbn [truthy]; constructor;
    [discriminate | constructor].
Qed.

Lemma on_token_groups (_TOKEN_BUFFER_SIZE : Z) (now : time) (token : str)
      (l : locals) :
  let r := on_token _TOKEN_BUFFER_SIZE now token l in
  exists gs : list (list str),
    fst r = map join gs /\ Forall (fun g => g <> []) gs
    /\ concat gs ++ token_buffer (snd r) = token_buffer l ++ [token].
Proof.
  unfold on_token. destruct (_TOKEN_BUFFER_SIZE <=? _); cbn [fst snd token_buffer].
  - exists [token_buffer l ++ [token]]. cbn [map concat].
    rewrite !app_nil_r. repeat split. constructor; [|constructor].
    destruct (token_buffer l); discriminate.
  - exists []. repeat split. constructor.
Qed.

Lemma on_timeout_groups (_TOKEN_FLUSH_INTERVAL : time) (now : time) (l : locals) :
  let r := on_timeout _TOKEN_FLUSH_INTERVAL now l in
  exists gs : list (list str),
    fst r = map join gs /\ Forall (fun g => g <> []) gs
    /\ concat gs ++ token_buffer (snd r) = token_buffer l.
Proof.
  unfold on_timeout. destruct (truthy (token_buffer l)) eqn:T; cbn [andb].
  - destruct (_TOKEN_FLUSH_INTERVAL <=? _); cbn [fst snd token_buffer].
    + exists [token_buffer l]. cbn [map concat]. rewrite !app_nil_r.
      repeat split. constructor; [|constructor].
      destruct (token_buffer l); discriminate.
    + exists []. repeat split. constructor.
  - exists []. repeat split. constructor.
Qed.

(** the chunks of a finished run, before the epilogue, are the joins of
    groups of consecutive tokens *)
Lemma loop_groups (_TOKEN_BUFFER_SIZE : Z) (_TOKEN_FLUSH_INTERVAL : time)
      (cancelled : nat -> bool) (sched : list tick) :
  forall (script : list producer_step) (sh : shared) (l : locals)
         (chunks : list str) (st : status),
    ends_once script sh ->
    loop _TOKEN_BUFFER_SIZE _TOKEN_FLUSH_INTERVAL cancelled sched script sh l
    = (chunks, st) ->
    st <> Running ->
    exists groups : list (list str),
      chunks = map join groups ++ fst (epilogue cancelled (run_all script sh))
      /\ Forall (fun g => g <> []) groups
      /\ concat groups = token_buffer l ++ queue sh ++ puts script
      /\ st = snd (epilogue cancelled (run_all script sh)).
Proof.
  induction sched as [|t sched IH]; intros script sh l chunks st Hends Hrun Hst.
  - cbn [loop] in Hrun. injection Hrun as _ <-. contradiction.
  - destruct t as [|now].
    + destruct script as [|p script]; cbn [loop] in Hrun.
      * eapply IH; eassumption.
      * destruct Hends as (_ & _ & Hends).
        destruct (IH _ _ _ _ _ Hends Hrun Hst) as (groups & -> & Hne & Hcat & ->).
        exists groups. repeat split; try assumption.
        rewrite Hcat, producer_queue.
        change (puts (p :: script)) with (step_puts p ++ puts script).
        rewrite <- !app_assoc. reflexivity.
    + cbn [loop] in Hrun. destruct (queue sh) as [|token rest] eqn:Q.
      * destruct (on_timeout_groups _TOKEN_FLUSH_INTERVAL now l)
          as (gs & Hout & Hgs & Hcat).
        destruct (on_timeout _TOKEN_FLUSH_INTERVAL now l) as [out l'].
        rewrite fst_pair in Hout. rewrite snd_pair in Hcat. subst out.
        destruct (done sh) eqn:D.
        -- destruct script as [|p script];
             [|destruct Hends as (_ & Hd & _); congruence].
           rewrite after_loop_epilogue in Hrun. unfold yield in Hrun.
           rewrite fst_pair, snd_pair in Hrun. injection Hrun as <- <-.
           exists (gs ++ group_of (token_buffer l')).
           rewrite map_app, group_of_join, <- app_assoc.
           split; [reflexivity|]. split.
           ++ apply Forall_app. split; [exact Hgs | apply group_of_nonempty].
           ++ rewrite concat_app, group_of_concat, Hcat.
              cbn [puts flat_map run_all fold_left]. rewrite !app_nil_r.
              split; reflexivity.
        -- unfold yield in Hrun.
           destruct (loop _ _ _ sched script sh l') as [c' s'] eqn:E.
           rewrite fst_pair, snd_pair in Hrun. injection Hrun as <- <-.
           destruct (IH _ _ _ _ _ Hends E Hst) as (groups & -> & Hne & Hcat' & ->).
           exists (gs ++ groups). rewrite map_app, <- app_assoc.
           split; [reflexivity|]. split; [apply Forall_app; auto|].
           split; [|reflexivity].
           rewrite concat_app, Hcat', Q, app_assoc, Hcat. reflexivity.
      * destruct (on_token_groups _TOKEN_BUFFER_SIZE now token l)
          as (gs & Hout & Hgs & Hcat).
        destruct (on_token _TOKEN_BUFFER_SIZE now token l) as [out l'].
        rewrite fst_pair in Hout. rewrite snd_pair in Hcat. subst out.
        assert (Hcanc : call_task_cancelled sh = false)
          by (destruct script; cbn [ends_once] in Hends; tauto).
        change (call_task_cancelled (queue_get rest sh))
          with (call_task_cancelled sh) in Hrun.
        rewrite Hcanc in Hrun. unfold yield in Hrun.
        destruct (loop _ _ _ sched script (queue_get rest sh) l') as [c' s'] eqn:E.
        rewrite fst_pair, snd_pair in Hrun. injection Hrun as <- <-.
        destruct (IH _ _ _ _ _ (ends_once_frame _ rest _ Hends) E Hst)
          as (groups & -> & Hne & Hcat' & ->).
        rewrite run_all_frame, epilogue_frame.
        exists (gs ++ groups). rewrite map_app, <- app_assoc.
        split; [reflexivity|]. split; [apply Forall_app; auto|].
        split; [|reflexivity].
        rewrite concat_app, Hcat'. cbn [queue queue_get].
        rewrite app_assoc, Hcat, <- app_assoc. reflexivity.
Qed.

(** X14. Tokens are never cut: in a finished run of a successful attempt
    every chunk is the join of one or more whole consecutive tokens, and
    the groups taken in order are the provider's tokens.  So there are at
    most as many chunks as tokens. *)
Theorem chunks_are_runs_of_whole_tokens :
  forall (_TOKEN_BUFFER_SIZE : Z) (_TOKEN_FLUSH_INTERVAL : time)
         (OPENAI_MODEL : str)
         (llm_ainvoke : str -> list lc_message -> provider_run)
         (cancelled : nat -> bool)
         (messages : list message) (model : option str) (t0 : time)
         (lc_msgs : list lc_message) (sched : list tick)
         (chunks : list str) (st : status),
    _lc_messages messages = Return lc_msgs ->
    let run := llm_ainvoke (model_or_default OPENAI_MODEL model) lc_msgs in
    raised run = None ->
    stream_openai _TOKEN_BUFFER_SIZE _TOKEN_FLUSH_INTERVAL OPENAI_MODEL
                  llm_ainvoke cancelled messages model t0 sched
    = (chunks, st) ->
    st <> Running ->
    (exists groups : list (list str),
        chunks = map join groups
        /\ Forall (fun g => g <> []) groups
        /\ concat groups = tokens run)
    /\ (length chunks <= length (tokens run))%nat.
Proof.
  intros SIZE INTERVAL OM llm cancelled messages model t0 lc_msgs sched chunks st
         Hlc run Hok Hrun Hst.
  assert (Hterm : is_terminal (last_step run) = true)
    by (unfold last_step; rewrite Hok; reflexivity).
  unfold stream_openai in Hrun.
  rewrite (run_call_adapted _ _ _ _ _ Hlc) in Hrun. fold run in Hrun.
  destruct (loop_groups _ _ _ sched _ _ _ _ _
              (ends_once_script (tokens run) _ initial Hterm eq_refl eq_refl)
              Hrun Hst) as (groups & Hchunks & Hne & Hcat & _).
  assert (Hepi : epilogue cancelled
                   (run_all (map on_llm_new_token (tokens run) ++ [last_step run])
                            initial) = ([], Returned)).
  { rewrite run_all_script, epilogue_frame. unfold last_step. rewrite Hok.
    reflexivity. }
  rewrite Hepi, fst_pair, app_nil_r in Hchunks.
  assert (Hgroups : concat groups = tokens run).
  { rewrite Hcat, puts_app, puts_tokens. unfold last_step. rewrite Hok.
    cbn [token_buffer queue initial puts flat_map step_puts app].
    rewrite app_nil_r. reflexivity. }
  split.
  - exists groups. auto.
  - rewrite Hchunks, length_map, <- Hgroups.
    clear - Hne. induction Hne as [|g groups Hg _ IH]; [simpl; lia|].
    cbn [concat length]. rewrite length_app.
    destruct g; [contradiction|]. simpl. lia.
Qed.

Lemma chunks_are_runs_witness :
  le (length (fst (stream_openai 4 50 (py "gpt-4o-mini")
                     (answering [py "Salt "; py "baths "; py "help."] None)
                     uninterrupted a_question None 0 (task_first 4 4))))
     3.
Proof.
  destruct (chunks_are_runs_of_whole_tokens 4 50 (py "gpt-4o-mini")
              (answering [py "Salt "; py "baths "; py "help."] None)
              uninterrupted a_question None 0 _ (task_first 4 4) _ _
              eq_refl eq_refl (surjective_pairing _)) as [_ H].
  - vm_compute. discriminate.
  - exact H.
Defined.

(** ** The threshold *)

Lemma buffered_nonneg (token_buffer : list str) : 0 <= buffered token_buffer.
Proof.
  unfold buffered. induction token_buffer as [|t ts IH]; cbn [map fold_right].
  - lia.
  - unfold len at 1. lia.
Qed.

Lemma buffered_app (b1 b2 : list str) :
  buffered (b1 ++ b2) = buffered b1 + buffered b2.
Proof.
  unfold buffered. induction b1 as [|t ts IH]; cbn [app map fold_right]; lia.
Qed.

Lemma len_join (token_buffer : list str) :
  len (join token_buffer) = buffered token_buffer.
Proof.
  unfold join, buffered, len.
  induction token_buffer as [|t ts IH]; cbn [concat map fold_right length].
  - reflexivity.
  - rewrite length_app, Nat2Z.inj_add, IH. reflexivity.
Qed.

(** with a threshold of zero or less every token is flushed on arrival *)
Lemma loop_no_coalescing (_TOKEN_BUFFER_SIZE : Z) (_TOKEN_FLUSH_INTERVAL : time)
      (cancelled : nat -> bool) (sched : list tick) :
  _TOKEN_BUFFER_SIZE <= 0 ->
  forall (script : list producer_step) (sh : shared) (l : locals)
         (chunks : list str) (st : status),
    token_buffer l = [] ->
    ends_once script sh ->
    loop _TOKEN_BUFFER_SIZE _TOKEN_FLUSH_INTERVAL cancelled sched script sh l
    = (chunks, st) ->
    st <> Running ->
    chunks = queue sh ++ puts script
             ++ fst (epilogue cancelled (run_all script sh))
    /\ st = snd (epilogue cancelled (run_all script sh)).
Proof.
  intros Hsize.
  induction sched as [|t sched IH]; intros script sh l chunks st B Hends Hrun Hst.
  - cbn [loop] in Hrun. injection Hrun as _ <-. contradiction.
  - destruct t as [|now].
    + destruct script as [|p script]; cbn [loop] in Hrun.
      * eapply IH; eassumption.
      * destruct Hends as (_ & _ & Hends).
        destruct (IH _ _ _ _ _ B Hends Hrun Hst) as [-> ->].
        split; [|reflexivity]. rewrite producer_queue.
        change (puts (p :: script)) with (step_puts p ++ puts script).
        rewrite <- !app_assoc. reflexivity.
    + cbn [loop] in Hrun. destruct (queue sh) as [|token rest] eqn:Q.
      * unfold on_timeout in Hrun. rewrite B in Hrun. cbn [truthy andb] in Hrun.
        destruct (done sh) eqn:D.
        -- destruct script as [|p script];
             [|destruct Hends as (_ & Hd & _); congruence].
           rewrite after_loop_epilogue in Hrun. unfold yield, flush in Hrun.
           rewrite B in Hrun. cbn [truthy app] in Hrun.
           rewrite fst_pair, snd_pair in Hrun. injection Hrun as <- <-.
           split; reflexivity.
        -- unfold yield in Hrun.
           destruct (loop _ _ _ sched script sh l) as [c' s'] eqn:E.
           rewrite fst_pair, snd_pair in Hrun. cbn [app] in Hrun.
           injection Hrun as <- <-.
           destruct (IH _ _ _ _ _ B Hends E Hst) as [-> ->].
           rewrite Q. split; reflexivity.
      * assert (Hflush : on_token _TOKEN_BUFFER_SIZE now token l
                         = ([token], {| token_buffer := []; last_flush := now |})).
        { unfold on_token. rewrite B. cbn [app].
          assert (Hle : (_TOKEN_BUFFER_SIZE <=? buffered [token]) = true).
          { apply Z.leb_le. pose proof (buffered_nonneg [token]). lia. }
          rewrite Hle. unfold join. cbn [concat]. rewrite app_nil_r. reflexivity. }
        rewrite Hflush in Hrun.
        assert (Hcanc : call_task_cancelled sh = false)
          by (destruct script; cbn [ends_once] in Hends; tauto).
        change (call_task_cancelled (queue_get rest sh))
          with (call_task_cancelled sh) in Hrun.
        rewrite Hcanc in Hrun. unfold yield in Hrun.
        destruct (loop _ _ _ sched script (queue_get rest sh)
                       {| token_buffer := []; last_flush := now |})
          as [c' s'] eqn:E.
        rewrite fst_pair, snd_pair in Hrun. injection Hrun as <- <-.
        destruct (IH script (queue_get rest sh)
                     {| token_buffer := []; last_flush := now |} c' s' eq_refl
                     (ends_once_frame _ rest _ Hends) E Hst)
          as [-> ->].
        rewrite run_all_frame, epilogue_frame. cbn [queue queue_get].
        split; reflexivity.
Qed.

(** X15. With [_TOKEN_BUFFER_SIZE] set to zero or less nothing is
    coalesced: in a finished run of a successful attempt the chunks are the
    provider's tokens, one chunk a token, empty tokens included. *)
Theorem nonpositive_threshold_yields_each_token :
  forall (_TOKEN_BUFFER_SIZE : Z) (_TOKEN_FLUSH_INTERVAL : time)
         (OPENAI_MODEL : str)
         (llm_ainvoke : str -> list lc_message -> provider_run)
         (cancelled : nat -> bool)
         (messages : list message) (model : option str) (t0 : time)
         (lc_msgs : list lc_message) (sched : list tick)
         (chunks : list str) (st : status),
    _TOKEN_BUFFER_SIZE <= 0 ->
    _lc_messages messages = Return lc_msgs ->
    let run := llm_ainvoke (model_or_default OPENAI_MODEL model) lc_msgs in
    raised run = None ->
    stream_openai _TOKEN_BUFFER_SIZE _TOKEN_FLUSH_INTERVAL OPENAI_MODEL
                  llm_ainvoke cancelled messages model t0 sched
    = (chunks, st) ->
    st <> Running ->
    chunks = tokens run /\ st = Returned.
Proof.
  intros SIZE INTERVAL OM llm cancelled messages model t0 lc_msgs sched chunks st
         Hsize Hlc run Hok Hrun Hst.
  assert (Hterm : is_terminal (last_step run) = true)
    by (unfold last_step; rewrite Hok; reflexivity).
  unfold stream_openai in Hrun.
  rewrite (run_call_adapted _ _ _ _ _ Hlc) in Hrun. fold run in Hrun.
  destruct (loop_no_coalescing SIZE INTERVAL cancelled sched Hsize _ initial
              {| token_buffer := []; last_flush := t0 |} chunks st eq_refl
              (ends_once_script (tokens run) _ initial Hterm eq_refl eq_refl)
              Hrun Hst) as [Hchunks Hstat].
  assert (Hepi : epilogue cancelled
                   (run_all (map on_llm_new_token (tokens run) ++ [last_step run])
                            initial) = ([], Returned)).
  { rewrite run_all_script, epilogue_frame. unfold last_step. rewrite Hok.
    reflexivity. }
  rewrite Hepi, fst_pair in Hchunks. rewrite Hepi, snd_pair in Hstat.
  split; [|exact Hstat].
  rewrite Hchunks, puts_app, puts_tokens. unfold last_step. rewrite Hok.
  cbn [queue initial puts flat_map step_puts app]. rewrite !app_nil_r.
  reflexivity.
Qed.

Lemma nonpositive_threshold_witness :
  fst (stream_openai 0 50 (py "gpt-4o-mini")
         (answering [[]; py "Salt "; py "baths."] None)
         uninterrupted a_question None 0 (task_first 4 4))
  = [[]; py "Salt "; py "baths."].
Proof.
  destruct (nonpositive_threshold_yields_each_token 0 50 (py "gpt-4o-mini")
              (answering [[]; py "Salt "; py "baths."] None)
              uninterrupted a_question None 0 _ (task_first 4 4) _ _
              ltac:(lia) eq_refl eq_refl (surjective_pairing _)) as [H _].
  - vm_compute. discriminate.
  - exact H.
Defined.

(** the buffer stays below a positive threshold, and a chunk is a buffer
    below the threshold with at most one more token *)
Lemma loop_chunk_bound (_TOKEN_BUFFER_SIZE : Z) (_TOKEN_FLUSH_INTERVAL : time)
      (cancelled : nat -> bool) (M : Z) (sched : list tick) :
  0 < _TOKEN_BUFFER_SIZE -> 0 <= M ->
  forall (script : list producer_step) (sh : shared) (l : locals),
    buffered (token_buffer l) < _TOKEN_BUFFER_SIZE ->
    Forall (fun t => len t <= M) (queue sh) ->
    Forall (success_step M) script ->
    error_marker sh = None ->
    Forall (fun chunk => len chunk < _TOKEN_BUFFER_SIZE + M)
           (fst (loop _TOKEN_BUFFER_SIZE _TOKEN_FLUSH_INTERVAL cancelled
                      sched script sh l)).
Proof.
  intros Hsize HM.
  induction sched as [|t sched IH]; intros script sh l B Q P Hem; cbn [loop].
  - constructor.
  - destruct t as [|now].
    + destruct script as [|p script]; [apply IH; assumption|].
      inversion P as [|? ? Hp Hrest]; subst.
      destruct p as [token | | error | e]; cbn [success_step] in Hp;
        try contradiction.
      * apply IH; try assumption.
        cbn [producer queue_put queue]. apply Forall_app. split; [exact Q|].
        constructor; [exact Hp | constructor].
      * apply IH; assumption.
    + destruct (queue sh) as [|token rest] eqn:E.
      * assert (H : Forall (fun chunk => len chunk < _TOKEN_BUFFER_SIZE + M)
                      (fst (on_timeout _TOKEN_FLUSH_INTERVAL now l))
                    /\ buffered (token_buffer
                                   (snd (on_timeout _TOKEN_FLUSH_INTERVAL now l)))
                       < _TOKEN_BUFFER_SIZE).
        { unfold on_timeout.
          destruct (truthy (token_buffer l) && _); cbn [fst snd token_buffer].
          - split; [|exact Hsize]. constructor; [|constructor].
            rewrite len_join. lia.
          - split; [constructor | exact B]. }
        destruct (on_timeout _ now l) as [out l']. cbn [fst snd] in H.
        destruct H as [Hout Hl'].
        destruct (done sh); unfold yield; rewrite fst_pair;
          apply Forall_app; split; try assumption.
        -- unfold after_loop. rewrite Hem.
           destruct (truthy (token_buffer l')); cbn [fst]; constructor;
             [|constructor].
           rewrite len_join. lia.
        -- apply IH; try assumption. rewrite E. constructor.
      * inversion Q as [|? ? Ht Hrest]; subst.
        assert (H : Forall (fun chunk => len chunk < _TOKEN_BUFFER_SIZE + M)
                      (fst (on_token _TOKEN_BUFFER_SIZE now token l))
                    /\ buffered (token_buffer
                                   (snd (on_token _TOKEN_BUFFER_SIZE now token l)))
                       < _TOKEN_BUFFER_SIZE).
        { unfold on_token.
          destruct (_TOKEN_BUFFER_SIZE <=? buffered (token_buffer l ++ [token]))
            eqn:L; cbn [fst snd token_buffer].
          - split; [|exact Hsize]. constructor; [|constructor].
            rewrite len_join, buffered_app. unfold buffered at 2.
            cbn [map fold_right]. lia.
          - split; [constructor|]. apply Z.leb_gt in L. exact L. }
        destruct (on_token _ now token l) as [out l']. cbn [fst snd] in H.
        destruct H as [Hout Hl'].
        destruct (call_task_cancelled (queue_get rest sh)).
        -- rewrite fst_pair. exact Hout.
        -- unfold yield. rewrite fst_pair. apply Forall_app. split; [exact Hout|].
           apply IH; assumption.
Qed.

(** X16. For a positive threshold and a successful attempt whose tokens
    have at most [M] characters each, every chunk has fewer than
    [_TOKEN_BUFFER_SIZE + M] characters, whatever the schedule: a chunk is
    a buffer that was below the threshold plus at most one token. *)
Theorem chunk_length_is_bounded :
  forall (_TOKEN_BUFFER_SIZE : Z) (_TOKEN_FLUSH_INTERVAL : time)
         (OPENAI_MODEL : str)
         (llm_ainvoke : str -> list lc_message -> provider_run)
         (cancelled : nat -> bool)
         (messages : list message) (model : option str) (t0 : time)
         (lc_msgs : list lc_message) (M : Z) (sched : list tick),
    0 < _TOKEN_BUFFER_SIZE -> 0 <= M ->
    _lc_messages messages = Return lc_msgs ->
    let run := llm_ainvoke (model_or_default OPENAI_MODEL model) lc_msgs in
    raised run = None ->
    Forall (fun token => len token <= M) (tokens run) ->
    Forall (fun chunk => len chunk < _TOKEN_BUFFER_SIZE + M)
           (fst (stream_openai _TOKEN_BUFFER_SIZE _TOKEN_FLUSH_INTERVAL
                               OPENAI_MODEL llm_ainvoke cancelled messages
                               model t0 sched)).
Proof.
  intros SIZE INTERVAL OM llm cancelled messages model t0 lc_msgs M sched
         Hsize HM Hlc run Hok Htok.
  unfold stream_openai. rewrite (run_call_adapted _ _ _ _ _ Hlc). fold run.
  apply loop_chunk_bound; try assumption; try reflexivity; try constructor.
  apply Forall_app. split.
  - clear - Htok. induction Htok; constructor; assumption.
  - unfold last_step. rewrite Hok. repeat constructor.
Qed.

Lemma chunk_length_witness :
  Forall (fun chunk => len chunk < 48 + 6)
         (fst (stream_openai 48 50 (py "gpt-4o-mini")
                 (answering [py "Salt "; py "baths "; py "help."] None)
                 uninterrupted a_question None 0 (task_first 4 4))).
Proof.
  apply (chunk_length_is_bounded 48 50 (py "gpt-4o-mini")
           (answering [py "Salt "; py "baths "; py "help."] None)
           uninterrupted a_question None 0
           [SystemMessage (py "You answer about aquaculture.");
            HumanMessage (py "How do I treat tilapia fin rot?")] 6);
    try lia; try reflexivity.
  vm_compute. repeat constructor; discriminate.
Defined.

(** ** The retry policy *)

